(** * quiz-app-frontend: the router's navigation guard and the registration form

    A shallow embedding of the two pieces of control flow of the front end:
    - [router/index.ts]: the route table and the [router.beforeEach] guard;
    - [components/user/CreateUser.vue]: [register], [isBlank], [fieldsFilled]
      and [preventSpace], with the bindings of the template.

    JavaScript strings are sequences of UTF-16 code units, objects used as
    maps ([meta], [query]) are finite maps keyed by property name, and the
    effects of the code (console output, calls into the store, the router
    and the error service) are threaded explicitly. *)

From Stdlib Require Import NArith List Bool Ascii String Lia.
From stdpp Require Import base option list gmap strings relations.

Set Default Proof Using "Type".

(** ** JavaScript strings and regular expressions *)

Module Js.

(** A UTF-16 code unit; the values of interest are below [65536]. *)
Definition code_unit := N.

Definition jsstring := list code_unit.

(** An ASCII literal of the source as a sequence of code units. *)
Definition lit (s : string) : jsstring :=
  map N_of_ascii (list_ascii_of_string s).

(** [a === b] and [a !== b] on strings. *)
Definition strict_eq (a b : jsstring) : bool := bool_decide (a = b).
Definition strict_ne (a b : jsstring) : bool := negb (strict_eq a b).

(** [ToBoolean] of a string: only the empty string is falsy. *)
Definition truthy_string (s : jsstring) : bool :=
  match s with
  | [] => false
  | _ :: _ => true
  end.

(** ECMAScript [WhiteSpace] and [LineTerminator] code points: the class
    [\s] of a regular expression, and what [String.prototype.trim] strips. *)
Definition is_line_terminator (c : code_unit) : bool :=
  (c =? 10)%N || (c =? 13)%N || (c =? 8232)%N || (c =? 8233)%N.

Definition is_white_space (c : code_unit) : bool :=
  (c =? 9)%N || (c =? 11)%N || (c =? 12)%N || (c =? 32)%N || (c =? 160)%N
  || (c =? 5760)%N || ((8192 <=? c)%N && (c <=? 8202)%N)
  || (c =? 8239)%N || (c =? 8287)%N || (c =? 12288)%N || (c =? 65279)%N.

Definition is_space (c : code_unit) : bool :=
  is_white_space c || is_line_terminator c.

(** The class [.] without the [s] flag. *)
Definition is_dot (c : code_unit) : bool := negb (is_line_terminator c).

(** Case folding of the [i] flag (without [u]) against an ASCII pattern
    character: [Canonicalize] never maps a non-ASCII code unit to an ASCII
    one, so only the two cases of a Latin letter are identified. *)
Definition ascii_upper (c : code_unit) : code_unit :=
  if (97 <=? c)%N && (c <=? 122)%N then (c - 32)%N else c.

Definition ci_eq (p c : code_unit) : bool :=
  (ascii_upper c =? ascii_upper p)%N.

Fixpoint drop_space (s : jsstring) : jsstring :=
  match s with
  | [] => []
  | c :: s' => if is_space c then drop_space s' else s
  end.

(** [String.prototype.trim]. *)
Definition trim (s : jsstring) : jsstring :=
  rev (drop_space (rev (drop_space s))).

(** Regular expressions over code units. A pattern is always used between
    [^] and [$] with neither the [m] nor the [g] flag, so [test] decides
    whether the whole subject is in the language of the body. *)
Inductive regex : Type :=
| Void
| Eps
| Class (p : code_unit -> bool)
| Cat (r s : regex)
| Alt (r s : regex)
| Star (r : regex).

Definition Opt (r : regex) : regex := Alt r Eps.
Definition Plus (r : regex) : regex := Cat r (Star r).

Fixpoint nullable (r : regex) : bool :=
  match r with
  | Void => false
  | Eps => true
  | Class _ => false
  | Cat r s => nullable r && nullable s
  | Alt r s => nullable r || nullable s
  | Star _ => true
  end.

Fixpoint deriv (c : code_unit) (r : regex) : regex :=
  match r with
  | Void => Void
  | Eps => Void
  | Class p => if p c then Eps else Void
  | Cat r s =>
      if nullable r then Alt (Cat (deriv c r) s) (deriv c s)
      else Cat (deriv c r) s
  | Alt r s => Alt (deriv c r) (deriv c s)
  | Star r => Cat (deriv c r) (Star r)
  end.

Fixpoint derivs (s : jsstring) (r : regex) : regex :=
  match s with
  | [] => r
  | c :: s' => derivs s' (deriv c r)
  end.

(** [/^r$/.test(s)]. *)
Definition test (r : regex) (s : jsstring) : bool := nullable (derivs s r).

(** The words of a regular expression. *)
Inductive lang : regex -> jsstring -> Prop :=
| lang_eps : lang Eps []
| lang_class p c : p c = true -> lang (Class p) [c]
| lang_cat r s u v : lang r u -> lang s v -> lang (Cat r s) (u ++ v)
| lang_alt_l r s u : lang r u -> lang (Alt r s) u
| lang_alt_r r s u : lang s u -> lang (Alt r s) u
| lang_star_nil r : lang (Star r) []
| lang_star_app r u v : lang r u -> lang (Star r) v -> lang (Star r) (u ++ v).

(** A literal, character by character, under the [i] flag. *)
Fixpoint literal_ci (s : jsstring) : regex :=
  match s with
  | [] => Eps
  | c :: s' => Cat (Class (ci_eq c)) (literal_ci s')
  end.

End Js.

Import Js.

(** ** vue-router: records, locations and path patterns *)

(** A route record of the table ([component] plays no part in navigation
    decisions and is left out). [meta] is the object literal of the record. *)
Module Route.
Record t : Type := mk {
  path : jsstring;
  name : jsstring;
  meta : gmap string bool
}.
End Route.

(** A value of [LocationQuery]: a string, [null], or an array of those. *)
Inductive QueryEntry : Type :=
| QValue (v : option jsstring)
| QArray (vs : list (option jsstring)).

(** A resolved location ([to] and [from] of a guard). A location that no
    record matches has no [name] and an empty [meta]. *)
Module Location.
Record t : Type := mk {
  name : option jsstring;
  path : jsstring;
  fullPath : jsstring;
  query : gmap string QueryEntry;
  meta : gmap string bool
}.
End Location.

(** The object [{ name: ..., query: {...} }] a guard may return. *)
Module Raw.
Record t : Type := mk {
  name : jsstring;
  query : gmap string QueryEntry
}.
End Raw.

(** What a navigation guard returns: [true], or a location to go to instead. *)
Inductive NavigationGuardReturn : Type :=
| NavTrue
| NavRedirect (target : Raw.t).

Module PathParser.

(** One token per segment, which is all the table uses. *)
Inductive Token : Type :=
| Static (value : jsstring)
| Param (name : jsstring) (regexp : option jsstring).

Definition slash : code_unit := 47%N.
Definition is_slash (c : code_unit) : bool := (c =? slash)%N.
Definition not_slash (c : code_unit) : bool := negb (is_slash c).

(** [s.split('/')]. *)
Fixpoint split_slash (s : jsstring) : list jsstring :=
  match s with
  | [] => [[]]
  | c :: s' =>
      if is_slash c then [] :: split_slash s'
      else match split_slash s' with
           | [] => [[c]]
           | seg :: segs => (c :: seg) :: segs
           end
  end.

(** Characters with a meaning in a path pattern: [: ( ) * + ?] and [\]. *)
Definition is_special (c : code_unit) : bool :=
  (c =? 58)%N || (c =? 40)%N || (c =? 41)%N || (c =? 42)%N
  || (c =? 43)%N || (c =? 63)%N || (c =? 92)%N.

(** Characters of a parameter name: [A-Za-z0-9_]. *)
Definition is_name_char (c : code_unit) : bool :=
  ((48 <=? c)%N && (c <=? 57)%N) || ((65 <=? c)%N && (c <=? 90)%N)
  || ((97 <=? c)%N && (c <=? 122)%N) || (c =? 95)%N.

Fixpoint span_name (s : jsstring) : jsstring * jsstring :=
  match s with
  | [] => ([], [])
  | c :: s' =>
      if is_name_char c
      then let '(n, rest) := span_name s' in (c :: n, rest)
      else ([], s)
  end.

(** The text between a leading [(] and the closing [)] that ends the
    segment. *)
Definition custom_regexp (s : jsstring) : option jsstring :=
  match s with
  | 40%N :: body =>
      match rev body with
      | 41%N :: rbody => Some (rev rbody)
      | _ => None
      end
  | _ => None
  end.

(** A segment is a static text, [:name] or [:name(regexp)]; anything else
    (modifiers, several tokens in a segment, an empty segment) is outside
    this model. *)
Definition tokenizeSegment (seg : jsstring) : option Token :=
  match seg with
  | [] => None
  | 58%N :: rest =>
      let '(n, tail) := span_name rest in
      match n, tail with
      | [], _ => None
      | _, [] => Some (Param n None)
      | _, _ => re ← custom_regexp tail; Some (Param n (Some re))
      end
  | _ => if existsb is_special seg then None else Some (Static seg)
  end.

(** The token of the pattern [/]: a static text with an empty value. *)
Definition ROOT_TOKEN : Token := Static [].

(** [tokenizePath]: a pattern starts with [/], and the pattern [/] is
    [ROOT_TOKEN] alone. *)
Definition tokenizePath (pattern : jsstring) : option (list Token) :=
  match pattern with
  | c :: rest =>
      if is_slash c then
        match rest with
        | [] => Some [ROOT_TOKEN]
        | _ => mapM tokenizeSegment (split_slash rest)
        end
      else None
  | [] => None
  end.

(** The custom regular expressions the model reads: [.*]. *)
Definition parse_regexp (src : jsstring) : option regex :=
  if strict_eq src (lit ".*") then Some (Star (Class is_dot)) else None.

(** The default pattern of a parameter, [[^/]+?]. *)
Definition BASE_PARAM_PATTERN : regex := Plus (Class not_slash).

Definition tokenRegex (t : Token) : option regex :=
  match t with
  | Static v => Some (Cat (Class is_slash) (literal_ci v))
  | Param _ None => Some (Cat (Class is_slash) BASE_PARAM_PATTERN)
  | Param _ (Some src) => re ← parse_regexp src; Some (Cat (Class is_slash) re)
  end.

(** [tokensToParser] with the default options (not [strict], not
    [sensitive], [end]): the segments in sequence, an optional trailing
    slash, and the end of the subject; the [i] flag is in [literal_ci]. *)
Fixpoint tokensRegex (ts : list Token) : option regex :=
  match ts with
  | [] => Some (Opt (Class is_slash))
  | t :: ts' =>
      r ← tokenRegex t; rs ← tokensRegex ts'; Some (Cat r rs)
  end.

Definition pathRegex (pattern : jsstring) : option regex :=
  tokenizePath pattern ≫= tokensRegex.

Definition is_static (t : Token) : bool :=
  match t with
  | Static _ => true
  | Param _ _ => false
  end.

(** A parameter whose custom regular expression is [.*]. *)
Definition is_wildcard (t : Token) : bool :=
  match t with
  | Param _ (Some src) => strict_eq src (lit ".*")
  | _ => false
  end.

End PathParser.

(** ** router/index.ts *)

Module UserStore.
(** The part of the user store the router reads. *)
Record t : Type := mk { isAuthenticated : bool }.
End UserStore.

Module Router.

Definition authMeta (b : bool) : gmap string bool := {[ "authRequired" := b ]}.

(** The [routes] option of [createRouter], in the order of the source. *)
Definition routes : list Route.t :=
  [ Route.mk (lit "/") (lit "home") (authMeta false);
    Route.mk (lit "/login") (lit "login") (authMeta false);
    Route.mk (lit "/register-user") (lit "register") (authMeta false);
    Route.mk (lit "/user-profile") (lit "user-profile") (authMeta true);
    Route.mk (lit "/user-progress") (lit "user-progress") (authMeta true);
    Route.mk (lit "/user-quizzes") (lit "user-quizzes") (authMeta true);
    Route.mk (lit "/quiz-browser") (lit "quiz-browser") (authMeta false);
    Route.mk (lit "/quiz-runner/:quizId") (lit "quiz-runner") (authMeta false);
    Route.mk (lit "/contact") (lit "contact") (authMeta false);
    Route.mk (lit "/quiz-creator") (lit "quiz-creator") (authMeta false);
    Route.mk (lit "/:pathName(.*)") (lit "not-found") (authMeta false) ].

(** The record named [not-found], the last of the table. *)
Definition notFound : Route.t :=
  Route.mk (lit "/:pathName(.*)") (lit "not-found") (authMeta false).

(** [matcher.re.test(path)]. *)
Definition matches (r : Route.t) (path : jsstring) : bool :=
  match PathParser.pathRegex (Route.path r) with
  | Some re => test re path
  | None => false
  end.

(** A record whose pattern has a parameter with the regular expression
    [.*]. *)
Definition isCatchAll (r : Route.t) : bool :=
  match PathParser.tokenizePath (Route.path r) with
  | Some ts => existsb PathParser.is_wildcard ts
  | None => false
  end.

(** A path as the router resolves it is absolute: it starts with [/]. *)
Definition isAbsolute (path : jsstring) : bool :=
  match path with
  | c :: _ => PathParser.is_slash c
  | [] => false
  end.

(** A path without a line terminator, as every percent-encoded one is. *)
Definition singleLine (path : jsstring) : bool := forallb is_dot path.

(** [matchers.find(m => m.re.test(path))], the records tried first to
    last. The router keeps its matchers by specificity and, among equals, in
    the order of the table; in this table the catch-all is last either way
    and no two other patterns match the same path, so the order of the
    table finds the same record. *)
Definition matchPath (table : list Route.t) (path : jsstring) : option Route.t :=
  find (fun r => matches r path) table.

(** [router.resolve] of a location given by its path. [path], [fullPath]
    and [query] are those of the parsed URL; the record found gives [name]
    and [meta], and a location nothing matches has neither. *)
Definition resolve (path fullPath : jsstring) (query : gmap string QueryEntry)
  : Location.t :=
  match matchPath routes path with
  | Some r => Location.mk (Some (Route.name r)) path fullPath query (Route.meta r)
  | None => Location.mk None path fullPath query ∅
  end.

(** A location string with neither a query nor a hash. *)
Definition resolvePath (path : jsstring) : Location.t := resolve path path ∅.

(** [ToBoolean] of a property of [meta]: a missing property is
    [undefined]. *)
Definition truthy (v : option bool) : bool :=
  match v with
  | Some b => b
  | None => false
  end.

(** What the guard can read or write outside its arguments. *)
Record World : Type := mkWorld {
  store : UserStore.t;
  console : list jsstring
}.

Definition useUserStore (w : World) : UserStore.t := store w.

Definition isAuthenticated (w : World) : bool :=
  let store := useUserStore w in
  UserStore.isAuthenticated store.

Definition console_log (line : jsstring) (w : World) : World :=
  mkWorld (store w) (console w ++ [line]).

(** [name?.toString()] inside a string concatenation. *)
Definition nameToString (n : option jsstring) : jsstring :=
  match n with
  | Some s => s
  | None => lit "undefined"
  end.

(** The guard registered with [router.beforeEach]. *)
Definition beforeEach (to from : Location.t) (w : World)
  : NavigationGuardReturn * World :=
  let w := console_log (lit "Trying to go from " ++ nameToString (Location.name from)
                        ++ lit " to: " ++ nameToString (Location.name to)) w in
  if truthy (Location.meta to !! "authRequired") then
    if isAuthenticated w then (NavTrue, w)
    else (NavRedirect
            (Raw.mk (lit "login")
                    {[ "redirect" := QValue (Some (Location.fullPath to)) ]}), w)
  else (NavTrue, w).

Section Navigation.

(** [stringifyQuery] of the router, which is not part of the source. *)
Variable stringifyQuery : gmap string QueryEntry -> jsstring.

(** [router.resolve] of a location given by name, for a record whose
    pattern has no parameter. *)
Definition resolveNamed (raw : Raw.t) : option Location.t :=
  r ← find (fun r => strict_eq (Route.name r) (Raw.name raw)) routes;
  ts ← PathParser.tokenizePath (Route.path r);
  if forallb PathParser.is_static ts then
    let search := stringifyQuery (Raw.query raw) in
    Some (Location.mk (Some (Route.name r)) (Route.path r)
            (Route.path r ++ (if truthy_string search then lit "?" ++ search else []))
            (Raw.query raw) (Route.meta r))
  else None.

(** A navigation is pending until the guard has run; the guard's result
    resolves it, and a redirect starts a navigation to its target. *)
Inductive Nav : Type :=
| Pending (to from : Location.t)
| Resolved (to from : Location.t) (decision : NavigationGuardReturn).

Inductive step : World * Nav -> World * Nav -> Prop :=
| step_guard w w' to from d :
    beforeEach to from w = (d, w') ->
    step (w, Pending to from) (w', Resolved to from d)
| step_redirect w to from raw to' :
    resolveNamed raw = Some to' ->
    step (w, Resolved to from (NavRedirect raw)) (w, Pending to' from).

(** The page a resolved navigation renders. *)
Definition rendered (n : Nav) : option Location.t :=
  match n with
  | Resolved to _ NavTrue => Some to
  | _ => None
  end.

End Navigation.

End Router.

(** ** components/user/CreateUser.vue *)

Module CreateUser.

(** The object sent to the store, as [register] builds it. *)
Module CreateUserRequestDTO.
Record t : Type := mk {
  username : jsstring;
  password : jsstring;
  email : jsstring;
  name : jsstring;
  surname : jsstring
}.
End CreateUserRequestDTO.

(** The [ref]s of the component. *)
Record Refs : Type := mkRefs {
  username : jsstring;
  password : jsstring;
  confirmPassword : jsstring;
  email : jsstring;
  name : jsstring;
  surname : jsstring;
  errorMessage : jsstring
}.

Definition set_errorMessage (msg : jsstring) (r : Refs) : Refs :=
  mkRefs (username r) (password r) (confirmPassword r) (email r) (name r)
         (surname r) msg.

(** [isBlank]: [!str || /^\s*$/.test(str)]. *)
Definition isBlank (str : jsstring) : bool :=
  negb (truthy_string str) || test (Star (Class is_space)) str.

(** The computed property [fieldsFilled]. *)
Definition fieldsFilled (r : Refs) : bool :=
  negb (isBlank (username r)) &&
  negb (isBlank (email r)) &&
  negb (isBlank (name r)) &&
  negb (isBlank (surname r)) &&
  negb (isBlank (confirmPassword r)).

(** The [disabled] attribute of the input [register-button]. *)
Definition registerButtonDisabled (r : Refs) : bool := negb (fieldsFilled r).

Definition registerButtonEnabled (r : Refs) : bool :=
  negb (registerButtonDisabled r).

(** The part of a keyboard event [preventSpace] touches. *)
Record KeyboardEvent : Type := mkEvent {
  key : jsstring;
  code : jsstring;
  defaultPrevented : bool
}.

(** [event.preventDefault()]; a [keydown] event is cancelable. *)
Definition preventDefault (e : KeyboardEvent) : KeyboardEvent :=
  mkEvent (key e) (code e) true.

Definition preventSpace (event : KeyboardEvent) : KeyboardEvent :=
  if strict_eq (key event) (lit " ") || strict_eq (code event) (lit "Space")
  then preventDefault event
  else event.

(** The text and password inputs of the template, by [id]. *)
Inductive Input : Type :=
| input_username
| input_email
| input_first_name
| input_surname
| input_password
| input_confirm_password.

(** The [@keydown] listener of each input. *)
Definition onKeydown (i : Input) : KeyboardEvent -> KeyboardEvent :=
  match i with
  | input_username => preventSpace
  | input_email => preventSpace
  | input_first_name => preventSpace
  | input_surname => preventSpace
  | input_password => preventSpace
  | input_confirm_password => preventSpace
  end.

(** The argument of [router.push]: a string, or whatever else the cast
    [as string] lets through. *)
Inductive PushArg : Type :=
| PushString (s : jsstring)
| PushOther (v : option QueryEntry).

(** [v as string], which does nothing at run time. *)
Definition asString (v : option QueryEntry) : PushArg :=
  match v with
  | Some (QValue (Some s)) => PushString s
  | _ => PushOther v
  end.

(** [ToBoolean] of a property of [route.query]: [undefined], [null] and
    the empty string are falsy, an array is an object. *)
Definition truthyEntry (v : option QueryEntry) : bool :=
  match v with
  | None => false
  | Some (QValue None) => false
  | Some (QValue (Some s)) => truthy_string s
  | Some (QArray _) => true
  end.

Section Register.

(** The values a call can throw, the state behind the store, the router
    and the error service, and what each call does to it. A call to the
    store or the router either resolves or rejects; the error service
    returns a text or fails itself. *)
Variable Err : Type.
Variable Env : Type.
Variable store_registerUser : CreateUserRequestDTO.t -> Env -> option Err * Env.
Variable router_push : PushArg -> Env -> option Err * Env.
Variable handleRequestError : Err -> jsstring -> Env -> (jsstring + Err) * Env.

(** The calls [register] makes, in order. *)
Inductive Call : Type :=
| CallRegisterUser (user : CreateUserRequestDTO.t)
| CallPush (target : PushArg)
| CallHandleRequestError (err : Err) (defaultMessage : jsstring).

(** [route] is the route of [useRoute()] as [register] finds it when it
    reads [route.query]; [register] reads nothing of it after the push. *)
Record State : Type := mkState {
  refs : Refs;
  route : Location.t;
  env : Env;
  calls : list Call
}.

(** A computation over the component's state that returns or throws. *)
Definition M (A : Type) : Type := State -> (A + Err) * State.

Definition ret {A} (a : A) : M A := fun st => (inl a, st).

Definition bind {A B} (m : M A) (k : A -> M B) : M B :=
  fun st =>
    match m st with
    | (inl a, st') => k a st'
    | (inr e, st') => (inr e, st')
    end.

Definition tryCatch {A} (m : M A) (handler : Err -> M A) : M A :=
  fun st =>
    match m st with
    | (inl a, st') => (inl a, st')
    | (inr e, st') => handler e st'
    end.

Definition get : M State := fun st => (inl st, st).

Definition assignErrorMessage (msg : jsstring) : M unit :=
  fun st =>
    (inl tt, mkState (set_errorMessage msg (refs st)) (route st) (env st) (calls st)).

(** An awaited call that resolves or rejects. *)
Definition await (c : Call) (f : Env -> option Err * Env) : M unit :=
  fun st =>
    let '(r, env') := f (env st) in
    let st' := mkState (refs st) (route st) env' (calls st ++ [c]) in
    match r with
    | None => (inl tt, st')
    | Some e => (inr e, st')
    end.

Definition awaitRegisterUser (user : CreateUserRequestDTO.t) : M unit :=
  await (CallRegisterUser user) (store_registerUser user).

Definition awaitPush (target : PushArg) : M unit :=
  await (CallPush target) (router_push target).

(** The awaited call of the error service inside the [catch] block: what
    it throws is caught by nothing. *)
Definition awaitHandleRequestError (err : Err) (msg : jsstring) : M jsstring :=
  fun st =>
    let '(r, env') := handleRequestError err msg (env st) in
    (r, mkState (refs st) (route st) env' (calls st ++ [CallHandleRequestError err msg])).

#[local] Instance M_ret : MRet M := @ret.
#[local] Instance M_bind : MBind M := fun A B k m => bind m k.

(** [register], the [submit] listener of the form. *)
Definition register : M unit :=
  st ← get;
  if strict_ne (password (refs st)) (confirmPassword (refs st)) then
    assignErrorMessage (lit "Password conformation not correct.")
  else
    let user :=
      CreateUserRequestDTO.mk
        (trim (username (refs st)))
        (trim (password (refs st)))
        (trim (email (refs st)))
        (trim (name (refs st)))
        (trim (surname (refs st))) in
    tryCatch
      (awaitRegisterUser user;;
       st ← get;
       if truthyEntry (Location.query (route st) !! "redirect") then
         awaitPush (asString (Location.query (route st) !! "redirect"))
       else
         awaitPush (PushString (lit "/")))
      (fun err =>
         msg ← awaitHandleRequestError err (lit "Registration failed");
         assignErrorMessage msg).

End Register.

Arguments CallRegisterUser {Err} user.
Arguments CallPush {Err} target.
Arguments CallHandleRequestError {Err} err defaultMessage.
Arguments mkState {Err Env} refs route env calls.
Arguments refs {Err Env} s.
Arguments route {Err Env} s.
Arguments env {Err Env} s.
Arguments calls {Err Env} s.

End CreateUser.

(** ** The watcher and the error line of CreateUser.vue *)

Module FormView.

Import CreateUser.

(** The six [ref]s bound to an input with [v-model], which are also the
    sources of the [watch]. *)
Inductive Field : Type :=
| field_username
| field_password
| field_confirmPassword
| field_email
| field_name
| field_surname.

Definition value (f : Field) (r : Refs) : jsstring :=
  match f with
  | field_username => username r
  | field_password => password r
  | field_confirmPassword => confirmPassword r
  | field_email => email r
  | field_name => name r
  | field_surname => surname r
  end.

(** [f.value = v]. *)
Definition assign (f : Field) (v : jsstring) (r : Refs) : Refs :=
  match f with
  | field_username =>
      mkRefs v (password r) (confirmPassword r) (email r) (name r) (surname r)
        (errorMessage r)
  | field_password =>
      mkRefs (username r) v (confirmPassword r) (email r) (name r) (surname r)
        (errorMessage r)
  | field_confirmPassword =>
      mkRefs (username r) (password r) v (email r) (name r) (surname r)
        (errorMessage r)
  | field_email =>
      mkRefs (username r) (password r) (confirmPassword r) v (name r) (surname r)
        (errorMessage r)
  | field_name =>
      mkRefs (username r) (password r) (confirmPassword r) (email r) v (surname r)
        (errorMessage r)
  | field_surname =>
      mkRefs (username r) (password r) (confirmPassword r) (email r) (name r) v
        (errorMessage r)
  end.

(** The callback of the [watch]: [errorMessage.value = ""]. *)
Definition onFieldsChanged (r : Refs) : Refs := set_errorMessage [] r.

(** An input event on a field: [v-model] assigns the new text, and the
    watcher runs when the value of the [ref] has changed. *)
Definition input (f : Field) (v : jsstring) (r : Refs) : Refs :=
  if strict_eq (value f r) v then r else onFieldsChanged (assign f v r).

(** [v-if="errorMessage"] on the error line. *)
Definition errorShown (r : Refs) : bool := truthy_string (errorMessage r).

End FormView.

(** ** Letter case *)

Module CaseFold.

(** A class that does not tell the two cases of a letter apart. *)
Definition class_ci (p : code_unit -> bool) : Prop :=
  forall c c', ascii_upper c = ascii_upper c' -> p c = p c'.

Fixpoint regex_ci (r : regex) : Prop :=
  match r with
  | Void => True
  | Eps => True
  | Class p => class_ci p
  | Cat a b => regex_ci a /\ regex_ci b
  | Alt a b => regex_ci a /\ regex_ci b
  | Star a => regex_ci a
  end.

End CaseFold.

(** ** What trimming leaves *)

Module TrimSpec.

(** [sent] is [raw] without the white space at its two ends. *)
Definition stripped (raw sent : jsstring) : Prop :=
  (exists l r,
     raw = l ++ sent ++ r
     /\ forallb is_space l = true /\ forallb is_space r = true)
  /\ (forall c rest, sent = c :: rest -> is_space c = false)
  /\ (forall init c, sent = init ++ [c] -> is_space c = false).

End TrimSpec.

(** * Properties *)

(** ** Regular expressions: [test] decides the language *)

Section RegexFacts.

Lemma lang_void w : lang Void w <-> False.
Proof. split; [inversion 1 | done]. Qed.

Lemma lang_eps_iff w : lang Eps w <-> w = [].
Proof. split; [by inversion 1 | intros ->; constructor]. Qed.

Lemma lang_class_iff p w : lang (Class p) w <-> exists c, w = [c] /\ p c = true.
Proof.
  split.
  - inversion 1; subst. eauto.
  - intros (c & -> & Hc). by constructor.
Qed.

Lemma lang_cat_iff r s w :
  lang (Cat r s) w <-> exists u v, w = u ++ v /\ lang r u /\ lang s v.
Proof.
  split.
  - inversion 1; subst. eauto.
  - intros (u & v & -> & Hu & Hv). by constructor.
Qed.

Lemma lang_alt_iff r s w : lang (Alt r s) w <-> lang r w \/ lang s w.
Proof.
  split.
  - inversion 1; subst; auto.
  - intros [H|H]; [by apply lang_alt_l | by apply lang_alt_r].
Qed.

Lemma nullable_lang r : nullable r = true <-> lang r [].
Proof.
  induction r as [| |p|r1 IH1 r2 IH2|r1 IH1 r2 IH2|r IH]; simpl.
  - by rewrite lang_void.
  - by rewrite lang_eps_iff.
  - rewrite lang_class_iff. split; [done | by intros (c & ? & _)].
  - rewrite andb_true_iff, IH1, IH2, lang_cat_iff. split.
    + intros [H1 H2]. by exists [], [].
    + intros (u & v & Heq & Hu & Hv). symmetry in Heq.
      apply app_eq_nil in Heq as [-> ->]. by split.
  - by rewrite orb_true_iff, IH1, IH2, lang_alt_iff.
  - split; [constructor | reflexivity].
Qed.

(** A non-empty word of a star starts with a non-empty word of the body. *)
Lemma lang_star_cons r c s :
  lang (Star r) (c :: s) ->
  exists u v, s = u ++ v /\ lang r (c :: u) /\ lang (Star r) v.
Proof.
  remember (Star r) as R eqn:HR. remember (c :: s) as w eqn:Hw.
  intros H. revert s HR Hw.
  induction H as [| | | | | |r' u v Hu _ Hv IHv]; intros t HR Hw;
    try discriminate.
  injection HR as ->.
  destruct u as [|c' u'].
  - simpl in Hw. by apply IHv.
  - simpl in Hw. injection Hw as -> <-. by exists u', v.
Qed.

Lemma deriv_lang c r : forall s, lang (deriv c r) s <-> lang r (c :: s).
Proof.
  induction r as [| |p|r1 IH1 r2 IH2|r1 IH1 r2 IH2|r IH]; intros s; simpl.
  - by rewrite !lang_void.
  - rewrite lang_void, lang_eps_iff. split; [done | discriminate].
  - rewrite lang_class_iff. destruct (p c) eqn:Hp.
    + rewrite lang_eps_iff. split.
      * intros ->. eauto.
      * by intros (c' & [= -> ->] & _).
    + rewrite lang_void. split; [done|].
      intros (c' & [= -> ->] & Hc'). congruence.
  - assert (Hcons : lang (Cat r1 r2) (c :: s) <->
              (exists u v, s = u ++ v /\ lang (deriv c r1) u /\ lang r2 v)
              \/ (lang r1 [] /\ lang (deriv c r2) s)).
    { rewrite lang_cat_iff. split.
      - intros (u & v & Heq & Hu & Hv). destruct u as [|c' u']; simpl in Heq.
        + subst v. right. split; [done | by apply IH2].
        + injection Heq as <- ->. left. exists u', v.
          split; [done|]. split; [by apply IH1 | done].
      - intros [(u & v & -> & Hu & Hv) | [Hn Hd]].
        + exists (c :: u), v. split; [done|]. split; [by apply IH1 | done].
        + exists [], (c :: s). split; [done|]. split; [done | by apply IH2]. }
    rewrite Hcons. destruct (nullable r1) eqn:Hn.
    + rewrite lang_alt_iff, lang_cat_iff. apply nullable_lang in Hn. tauto.
    + rewrite lang_cat_iff. split; [tauto|].
      intros [H | [Hnil _]]; [done|].
      apply nullable_lang in Hnil. congruence.
  - by rewrite !lang_alt_iff, IH1, IH2.
  - rewrite lang_cat_iff. split.
    + intros (u & v & -> & Hu & Hv). apply IH in Hu.
      exact (lang_star_app _ (c :: u) v Hu Hv).
    + intros H. apply lang_star_cons in H as (u & v & -> & Hu & Hv).
      exists u, v. split; [done|]. split; [by apply IH | done].
Qed.

Lemma test_lang s : forall r, test r s = true <-> lang r s.
Proof.
  unfold test. induction s as [|c s IH]; intros r; simpl.
  - apply nullable_lang.
  - rewrite IH. apply deriv_lang.
Qed.

(** [/^[p]*$/] accepts the strings all of whose code units are in [p]. *)
Lemma lang_star_class p s : lang (Star (Class p)) s <-> forallb p s = true.
Proof.
  split.
  - remember (Star (Class p)) as R eqn:HR. intros H. revert HR.
    induction H as [| | | | | |r u v Hu _ Hv IHv]; intros HR;
      try discriminate; [done|].
    injection HR as ->. apply lang_class_iff in Hu as (c & -> & Hc). simpl.
    by rewrite Hc, (IHv eq_refl).
  - induction s as [|c s IH]; simpl; [constructor|].
    rewrite andb_true_iff. intros [Hc Hs].
    apply (lang_star_app _ [c] s); [by constructor | by apply IH].
Qed.

Lemma test_star_class p s : test (Star (Class p)) s = forallb p s.
Proof.
  apply eq_true_iff_eq. rewrite test_lang. apply lang_star_class.
Qed.

End RegexFacts.

(** ** The navigation guard *)

Section GuardProperties.

Import Router.

(** The guard reads the session flag and appends one line to the console;
    it writes nothing else. *)
Lemma beforeEach_world to from w :
  exists line, (beforeEach to from w).2 = console_log line w.
Proof.
  unfold beforeEach. eexists.
  destruct (truthy _); [destruct (isAuthenticated _)|]; reflexivity.
Qed.

Lemma beforeEach_keeps_session to from w :
  isAuthenticated (beforeEach to from w).2 = isAuthenticated w.
Proof. destruct (beforeEach_world to from w) as [line ->]. reflexivity. Qed.

Lemma beforeEach_decision to from w :
  (beforeEach to from w).1 =
    if truthy (Location.meta to !! "authRequired") then
      if isAuthenticated w then NavTrue
      else NavRedirect (Raw.mk (lit "login")
                          {[ "redirect" := QValue (Some (Location.fullPath to)) ]})
    else NavTrue.
Proof.
  unfold beforeEach.
  destruct (truthy _); [|reflexivity].
  change (isAuthenticated (console_log _ w)) with (isAuthenticated w).
  destruct (isAuthenticated w); reflexivity.
Qed.

Lemma guard_redirects_to_login_aux to from w :
  Location.meta to !! "authRequired" = Some true ->
  isAuthenticated w = false ->
  (beforeEach to from w).1 =
    NavRedirect (Raw.mk (lit "login")
                   {[ "redirect" := QValue (Some (Location.fullPath to)) ]}).
Proof.
  intros Hmeta Hsession. rewrite beforeEach_decision, Hmeta, Hsession.
  reflexivity.
Qed.

Lemma guard_proceeds_on_public_route_aux to from w :
  Location.meta to !! "authRequired" = Some false ->
  (beforeEach to from w).1 = NavTrue.
Proof.
  intros Hmeta. rewrite beforeEach_decision, Hmeta. reflexivity.
Qed.

(** C1. A navigation to a route with [authRequired = true] while the
    session is not authenticated is answered with a redirect to the route
    named [login] whose [query.redirect] is the full path of the target,
    exactly as requested. *)
Theorem guard_redirects_to_login (to from : Location.t) (w : World) :
  Location.meta to !! "authRequired" = Some true ->
  isAuthenticated w = false ->
  (beforeEach to from w).1 =
    NavRedirect (Raw.mk (lit "login")
                   {[ "redirect" := QValue (Some (Location.fullPath to)) ]}).
Proof.
  intros Hmeta Hsession. rewrite beforeEach_decision, Hmeta, Hsession.
  reflexivity.
Qed.

(** The scenario of the specification: [/user-profile] without a session,
    here requested with a query. *)
Lemma guard_redirects_to_login_witness :
  let to := resolve (lit "/user-profile") (lit "/user-profile?tab=quizzes")
              {[ "tab" := QValue (Some (lit "quizzes")) ]} in
  let from := resolvePath (lit "/") in
  let w := mkWorld (UserStore.mk false) [] in
  (beforeEach to from w).1 =
    NavRedirect (Raw.mk (lit "login")
                   {[ "redirect" := QValue (Some (Location.fullPath to)) ]}).
Proof.
  intros to from w.
  apply (guard_redirects_to_login to from w); vm_compute; reflexivity.
Defined.

Example user_profile_without_session :
  (beforeEach (resolvePath (lit "/user-profile")) (resolvePath (lit "/"))
     (mkWorld (UserStore.mk false) [])).1 =
    NavRedirect (Raw.mk (lit "login")
                   {[ "redirect" := QValue (Some (lit "/user-profile")) ]}).
Proof. vm_compute. reflexivity. Qed.

(** C2. A navigation to a route with [authRequired = false] proceeds,
    whatever the session flag. *)
Theorem guard_proceeds_on_public_route (to from : Location.t) (w : World) :
  Location.meta to !! "authRequired" = Some false ->
  (beforeEach to from w).1 = NavTrue.
Proof.
  intros Hmeta. rewrite beforeEach_decision, Hmeta. reflexivity.
Qed.

(** The scenario of the specification: [/quiz-browser] without a session. *)
Lemma guard_proceeds_on_public_route_witness :
  let to := resolvePath (lit "/quiz-browser") in
  let from := resolvePath (lit "/") in
  (beforeEach to from (mkWorld (UserStore.mk false) [])).1 = NavTrue
  /\ (beforeEach to from (mkWorld (UserStore.mk true) [])).1 = NavTrue.
Proof.
  intros to from.
  split; apply (guard_proceeds_on_public_route to); vm_compute; reflexivity.
Defined.

(** C3. A navigation to a route with [authRequired = true] proceeds when
    the session is authenticated. *)
Theorem guard_proceeds_when_authenticated (to from : Location.t) (w : World) :
  Location.meta to !! "authRequired" = Some true ->
  isAuthenticated w = true ->
  (beforeEach to from w).1 = NavTrue.
Proof.
  intros Hmeta Hsession. rewrite beforeEach_decision, Hmeta, Hsession.
  reflexivity.
Qed.

(** The scenario of the specification: [/user-quizzes] with a session. *)
Lemma guard_proceeds_when_authenticated_witness :
  (beforeEach (resolvePath (lit "/user-quizzes")) (resolvePath (lit "/login"))
     (mkWorld (UserStore.mk true) [])).1 = NavTrue.
Proof.
  apply guard_proceeds_when_authenticated; vm_compute; reflexivity.
Defined.

(** C9. The decision is a function of the target and of the session flag:
    neither the source route nor the console changes it, and running the
    guard again in the world the first run left gives the same decision. *)
Theorem guard_decision_deterministic (to from1 from2 : Location.t) (w1 w2 : World) :
  isAuthenticated w1 = isAuthenticated w2 ->
  (beforeEach to from1 w1).1 = (beforeEach to from2 w2).1
  /\ (beforeEach to from1 (beforeEach to from1 w1).2).1 = (beforeEach to from1 w1).1.
Proof.
  intros Hsession. rewrite !beforeEach_decision, beforeEach_keeps_session.
  by rewrite Hsession.
Qed.

Lemma guard_decision_deterministic_witness :
  let to := resolvePath (lit "/user-progress") in
  let from1 := resolvePath (lit "/") in
  let from2 := resolvePath (lit "/contact") in
  let w1 := mkWorld (UserStore.mk false) [] in
  let w2 := mkWorld (UserStore.mk false) [lit "earlier output"] in
  (beforeEach to from1 w1).1 = (beforeEach to from2 w2).1
  /\ (beforeEach to from1 (beforeEach to from1 w1).2).1 = (beforeEach to from1 w1).1.
Proof.
  intros to from1 from2 w1 w2.
  apply (guard_decision_deterministic to from1 from2 w1 w2). reflexivity.
Defined.

End GuardProperties.

(** ** Route resolution *)

Section ResolutionProperties.

Import Router.

Lemma find_app_case {A} (f : A -> bool) (l1 l2 : list A) :
  find f (l1 ++ l2) =
    match find f l1 with
    | Some y => Some y
    | None => find f l2
    end.
Proof.
  induction l1 as [|x l1 IH]; simpl; [done|]. by destruct (f x).
Qed.

Lemma find_none_iff {A} (f : A -> bool) (l : list A) :
  find f l = None <-> forall x, x ∈ l -> f x = false.
Proof.
  split.
  - intros H x Hx. apply (find_none f l H). by apply list_elem_of_In.
  - intros H. destruct (find f l) as [y|] eqn:Hy; [|done].
    apply find_some in Hy as [Hin Hfy].
    apply list_elem_of_In, H in Hin. congruence.
Qed.

(** The table is its first ten records, none of them a catch-all,
    followed by [notFound]. *)
Lemma routes_split : routes = take 10 routes ++ [notFound].
Proof. reflexivity. Qed.

Lemma front_not_catch_all r : r ∈ take 10 routes -> isCatchAll r = false.
Proof.
  intros Hr.
  assert (H : forallb (fun r => negb (isCatchAll r)) (take 10 routes) = true)
    by (vm_compute; reflexivity).
  rewrite forallb_forall in H. apply list_elem_of_In, H in Hr.
  by apply negb_true_iff in Hr.
Qed.

Lemma front_in_routes r : r ∈ take 10 routes -> r ∈ routes.
Proof. rewrite routes_split at 2. rewrite elem_of_app. by left. Qed.

Lemma notFound_catch_all : isCatchAll notFound = true.
Proof. vm_compute. reflexivity. Qed.

(** A record of the table that is no catch-all is one of the first ten. *)
Lemma not_catch_all_front r :
  r ∈ routes -> isCatchAll r = false -> r ∈ take 10 routes.
Proof.
  rewrite routes_split at 1. rewrite elem_of_app, list_elem_of_singleton.
  intros [H | ->] Hr; [done|]. rewrite notFound_catch_all in Hr. done.
Qed.

(** The regular expression of the catch-all pattern: a slash, any number
    of code units other than line terminators, an optional slash. *)
Lemma notFound_regex :
  PathParser.pathRegex (Route.path notFound) =
    Some (Cat (Cat (Class PathParser.is_slash) (Star (Class is_dot)))
              (Opt (Class PathParser.is_slash))).
Proof. reflexivity. Qed.

Lemma slash_is_dot c : PathParser.is_slash c = true -> is_dot c = true.
Proof.
  unfold PathParser.is_slash. rewrite N.eqb_eq. by intros ->.
Qed.

(** The catch-all pattern matches the absolute paths that have no line
    terminator. *)
Lemma matches_notFound path :
  matches notFound path = true <->
  isAbsolute path = true /\ singleLine path = true.
Proof.
  unfold matches. rewrite notFound_regex, test_lang.
  unfold Opt. rewrite lang_cat_iff. split.
  - intros (u & v & -> & Hu & Hv).
    apply lang_cat_iff in Hu as (u1 & u2 & -> & Hu1 & Hu2).
    apply lang_class_iff in Hu1 as (c & -> & Hc).
    apply lang_star_class in Hu2.
    split; [exact Hc|]. unfold singleLine. simpl.
    rewrite (slash_is_dot c Hc), forallb_app, Hu2. simpl.
    apply lang_alt_iff in Hv as [Hv | Hv].
    + apply lang_class_iff in Hv as (c' & -> & Hc'). simpl.
      by rewrite (slash_is_dot c' Hc').
    + apply lang_eps_iff in Hv as ->. reflexivity.
  - intros [Habs Hline]. destruct path as [|c rest]; [discriminate|].
    simpl in Habs. unfold singleLine in Hline. simpl in Hline.
    apply andb_true_iff in Hline as [_ Hrest].
    exists (c :: rest), []. split; [by rewrite app_nil_r|]. split.
    + apply (lang_cat _ _ [c] rest); [by constructor|].
      by apply lang_star_class.
    + apply lang_alt_r. constructor.
Qed.

(** Resolution when none of the first ten records matches. *)
Lemma matchPath_unmatched path :
  (forall r, r ∈ routes -> isCatchAll r = false -> matches r path = false) ->
  matchPath routes path = if matches notFound path then Some notFound else None.
Proof.
  intros Hnone. unfold matchPath. rewrite routes_split, find_app_case.
  replace (find _ (take 10 routes)) with (@None Route.t); [done|].
  symmetry. apply find_none_iff. intros r Hr.
  apply Hnone; [by apply front_in_routes | by apply front_not_catch_all].
Qed.

End ResolutionProperties.

(** *** The patterns other than the catch-all do not overlap *)

Section Disjointness.

Import Router.

Lemma lang_literal_ci v :
  forall s, lang (literal_ci v) s <-> map ascii_upper s = map ascii_upper v.
Proof.
  induction v as [|c v IH]; intros s; simpl.
  - rewrite lang_eps_iff. split; [by intros -> | by destruct s].
  - rewrite lang_cat_iff. split.
    + intros (u & w & -> & Hu & Hw).
      apply lang_class_iff in Hu as (c' & -> & Hc').
      apply N.eqb_eq in Hc'. apply IH in Hw. simpl. by rewrite Hc', Hw.
    + destruct s as [|c' w]; [discriminate|]. simpl. intros [= Hc' Hw].
      exists [c'], w. split; [done|]. split.
      * apply lang_class_iff. exists c'. split; [done|]. by apply N.eqb_eq.
      * by apply IH.
Qed.

Lemma lang_slash w : lang (Class PathParser.is_slash) w <-> w = [47%N].
Proof.
  rewrite lang_class_iff. unfold PathParser.is_slash. split.
  - intros (c & -> & Hc). apply N.eqb_eq in Hc. by rewrite Hc.
  - intros ->. by exists 47%N.
Qed.

Lemma lang_opt_slash w :
  lang (Opt (Class PathParser.is_slash)) w <-> w = [] \/ w = [47%N].
Proof.
  unfold Opt. rewrite lang_alt_iff, lang_slash, lang_eps_iff. tauto.
Qed.

(** A pattern of one static segment matches its text, in either case, with
    or without a trailing slash. *)
Lemma matches_static r v path :
  PathParser.tokenizePath (Route.path r) = Some [PathParser.Static v] ->
  matches r path = true ->
  map ascii_upper path = 47%N :: map ascii_upper v
  \/ map ascii_upper path = 47%N :: map ascii_upper v ++ [47%N].
Proof.
  intros Htok. unfold matches, PathParser.pathRegex. rewrite Htok. simpl.
  rewrite test_lang, lang_cat_iff. intros (u & t & -> & Hu & Ht).
  apply lang_cat_iff in Hu as (u1 & u2 & -> & Hu1 & Hu2).
  apply lang_slash in Hu1 as ->. apply lang_literal_ci in Hu2.
  apply lang_opt_slash in Ht as [-> | ->].
  - left. rewrite app_nil_r. simpl. by rewrite Hu2.
  - right. rewrite map_app. simpl. by rewrite Hu2.
Qed.

(** A pattern of a static segment and a parameter matches its text followed
    by a slash and something more. *)
Lemma matches_static_param r v n path :
  PathParser.tokenizePath (Route.path r)
  = Some [PathParser.Static v; PathParser.Param n None] ->
  matches r path = true ->
  exists c rest,
    map ascii_upper path = 47%N :: map ascii_upper v ++ 47%N :: c :: rest.
Proof.
  intros Htok. unfold matches, PathParser.pathRegex. rewrite Htok. simpl.
  rewrite test_lang, lang_cat_iff. intros (u & t & -> & Hu & Ht).
  apply lang_cat_iff in Hu as (u1 & u2 & -> & Hu1 & Hu2).
  apply lang_slash in Hu1 as ->. apply lang_literal_ci in Hu2.
  apply lang_cat_iff in Ht as (t1 & t2 & -> & Ht1 & _).
  apply lang_cat_iff in Ht1 as (s1 & s2 & -> & Hs1 & Hs2).
  apply lang_slash in Hs1 as ->.
  apply lang_cat_iff in Hs2 as (p1 & p2 & -> & Hp1 & _).
  apply lang_class_iff in Hp1 as (c & -> & _).
  exists (ascii_upper c), (map ascii_upper (p2 ++ t2)).
  rewrite !map_app. simpl. by rewrite Hu2.
Qed.

(** What a match says about the path, by the shape of the pattern. *)
Lemma matches_shape r path :
  matches r path = true ->
  match PathParser.tokenizePath (Route.path r) with
  | Some [PathParser.Static v] =>
      map ascii_upper path = 47%N :: map ascii_upper v
      \/ map ascii_upper path = 47%N :: map ascii_upper v ++ [47%N]
  | Some [PathParser.Static v; PathParser.Param n None] =>
      exists c rest,
        map ascii_upper path = 47%N :: map ascii_upper v ++ 47%N :: c :: rest
  | _ => True
  end.
Proof.
  intros Hm.
  destruct (PathParser.tokenizePath (Route.path r))
    as [[|[v|] [|[|n [|]] [|]]]|] eqn:Htok; try done.
  - by eapply matches_static.
  - by eapply matches_static_param.
Qed.

(** At most one record other than the catch-all matches a path, so the
    order in which those records are tried does not matter. *)
Lemma routes_disjoint path r1 r2 :
  r1 ∈ routes -> r2 ∈ routes ->
  isCatchAll r1 = false -> isCatchAll r2 = false ->
  matches r1 path = true -> matches r2 path = true ->
  r1 = r2.
Proof.
  intros Hr1 Hr2 Hc1 Hc2.
  apply (not_catch_all_front _ Hr1) in Hc1.
  apply (not_catch_all_front _ Hr2) in Hc2.
  clear Hr1 Hr2. apply list_elem_of_In in Hc1, Hc2.
  change (take 10 routes) with
    [ Route.mk (lit "/") (lit "home") (authMeta false);
      Route.mk (lit "/login") (lit "login") (authMeta false);
      Route.mk (lit "/register-user") (lit "register") (authMeta false);
      Route.mk (lit "/user-profile") (lit "user-profile") (authMeta true);
      Route.mk (lit "/user-progress") (lit "user-progress") (authMeta true);
      Route.mk (lit "/user-quizzes") (lit "user-quizzes") (authMeta true);
      Route.mk (lit "/quiz-browser") (lit "quiz-browser") (authMeta false);
      Route.mk (lit "/quiz-runner/:quizId") (lit "quiz-runner") (authMeta false);
      Route.mk (lit "/contact") (lit "contact") (authMeta false);
      Route.mk (lit "/quiz-creator") (lit "quiz-creator") (authMeta false) ]
    in Hc1, Hc2.
  simpl In in Hc1, Hc2.
  repeat (destruct Hc1 as [<- | Hc1]); try done;
    repeat (destruct Hc2 as [<- | Hc2]); try done;
    intros H1 H2; try reflexivity;
    apply matches_shape in H1, H2; vm_compute in H1, H2;
    (destruct H1 as [H1 | H1] || destruct H1 as (c1 & rest1 & H1));
    (destruct H2 as [H2 | H2] || destruct H2 as (c2 & rest2 & H2));
    rewrite H1 in H2; discriminate H2.
Qed.

End Disjointness.

Section CatchAll.

Import Router.

(** The guard proceeds on a location without [meta.authRequired], which is
    what the router hands over when no record matches at all. *)
Lemma guard_proceeds_without_meta to from w :
  Location.meta to !! "authRequired" = None ->
  (beforeEach to from w).1 = NavTrue.
Proof. intros Hmeta. by rewrite beforeEach_decision, Hmeta. Qed.

(** X21. Let no record other than the catch-all match [path]. If [path]
    is absolute and has no line terminator, resolution yields the record
    [not-found], whose [authRequired] is [false]. In every case the guard
    proceeds on the resolved location. The catch-all is the last record of
    the table, and resolution yields it only for a path that no other
    record matches. *)
Theorem unmatched_path_resolves_to_not_found (path : jsstring) :
  (forall r, r ∈ routes -> isCatchAll r = false -> matches r path = false) ->
  (isAbsolute path = true -> singleLine path = true ->
     matchPath routes path = Some notFound
     /\ forall fullPath query,
          Location.name (resolve path fullPath query) = Some (lit "not-found")
          /\ Location.meta (resolve path fullPath query) !! "authRequired"
             = Some false)
  /\ (forall fullPath query from w,
        (beforeEach (resolve path fullPath query) from w).1 = NavTrue)
  /\ last routes = Some notFound
  /\ (forall path',
        matchPath routes path' = Some notFound ->
        forall r, r ∈ routes -> isCatchAll r = false -> matches r path' = false).
Proof.
  intros Hnone. pose proof (matchPath_unmatched path Hnone) as Hfind.
  split; [|split; [|split]].
  - intros Habs Hline.
    assert (Hm : matches notFound path = true) by by apply matches_notFound.
    rewrite Hm in Hfind. split; [done|].
    intros fullPath query. unfold resolve. rewrite Hfind. by split.
  - intros fullPath query from w. unfold resolve. rewrite Hfind.
    destruct (matches notFound path).
    + by apply guard_proceeds_on_public_route_aux.
    + by apply guard_proceeds_without_meta.
  - reflexivity.
  - intros path' Hres r Hr Hcatch.
    unfold matchPath in Hres. rewrite routes_split, find_app_case in Hres.
    destruct (find _ (take 10 routes)) as [y|] eqn:Hy.
    + apply find_some in Hy as [Hin _]. injection Hres as ->.
      apply list_elem_of_In, front_not_catch_all in Hin.
      by rewrite notFound_catch_all in Hin.
    + apply (proj1 (find_none_iff _ _) Hy). by apply not_catch_all_front.
Qed.

(** The scenario of the specification: [/xyz123]. *)
Lemma unmatched_path_resolves_to_not_found_witness :
  matchPath routes (lit "/xyz123") = Some notFound
  /\ Location.meta (resolvePath (lit "/xyz123")) !! "authRequired" = Some false
  /\ forall from w, (beforeEach (resolvePath (lit "/xyz123")) from w).1 = NavTrue.
Proof.
  assert (Hnone : forall r, r ∈ routes -> isCatchAll r = false ->
                            matches r (lit "/xyz123") = false).
  { intros r Hr Hcatch. apply not_catch_all_front in Hr; [|done].
    assert (H : forallb (fun r => negb (matches r (lit "/xyz123")))
                  (take 10 routes) = true) by (vm_compute; reflexivity).
    rewrite forallb_forall in H. apply list_elem_of_In, H in Hr.
    by apply negb_true_iff in Hr. }
  destruct (unmatched_path_resolves_to_not_found (lit "/xyz123") Hnone)
    as (Hres & Hguard & _).
  destruct (Hres eq_refl eq_refl) as [Hfind Hloc].
  split; [exact Hfind|]. split.
  - exact (proj2 (Hloc (lit "/xyz123") ∅)).
  - exact (Hguard (lit "/xyz123") ∅).
Defined.

(** A path with a line feed, as [router.push] accepts it from a decoded
    query value: no record other than the catch-all matches it, and the
    catch-all does not match it either, because [.] stops at a line
    terminator. Resolution finds no record. *)
Lemma catch_all_misses_line_feed :
  let path := lit "/a" ++ [10%N] ++ lit "b" in
  (forall r, r ∈ routes -> isCatchAll r = false -> matches r path = false)
  /\ matchPath routes path <> Some notFound.
Proof.
  intros path. split.
  - intros r Hr Hcatch. apply not_catch_all_front in Hr; [|done].
    assert (H : forallb (fun r => negb (matches r path)) (take 10 routes) = true)
      by (vm_compute; reflexivity).
    rewrite forallb_forall in H. apply list_elem_of_In, H in Hr.
    by apply negb_true_iff in Hr.
  - assert (H : matchPath routes path = None) by (vm_compute; reflexivity).
    rewrite H. discriminate.
Qed.

(** C8. The catch-all is meant for every path that no other record
    matches. The path [/a], line feed, [b] is matched by no other record,
    and the catch-all does not match it either: resolution finds no record,
    and the location has neither a name nor [meta.authRequired]. The
    default pattern of a parameter, as in [/quiz-runner/:quizId], does
    accept a line feed. *)
Theorem line_feed_path_finds_no_record :
  let path := lit "/a" ++ [10%N] ++ lit "b" in
  (forall r, r ∈ routes -> isCatchAll r = false -> matches r path = false)
  /\ matches notFound path = false
  /\ matchPath routes path = None
  /\ Location.name (resolvePath path) = None
  /\ Location.meta (resolvePath path) !! "authRequired" = None
  /\ matches (Route.mk (lit "/quiz-runner/:quizId") (lit "quiz-runner") (authMeta false))
       (lit "/quiz-runner/a" ++ [10%N] ++ lit "b") = true.
Proof.
  intros path. split.
  - intros r Hr Hcatch. apply not_catch_all_front in Hr; [|done].
    assert (H : forallb (fun r => negb (matches r path)) (take 10 routes) = true)
      by (vm_compute; reflexivity).
    rewrite forallb_forall in H. apply list_elem_of_In, H in Hr.
    by apply negb_true_iff in Hr.
  - repeat split; vm_compute; reflexivity.
Qed.

End CatchAll.

(** ** Navigations *)

Section NavigationProperties.

Import Router.

Variable stringifyQuery : gmap string QueryEntry -> jsstring.

#[local] Abbreviation step := (Router.step stringifyQuery).

Lemma step_keeps_session w n w' n' :
  step (w, n) (w', n') -> isAuthenticated w' = isAuthenticated w.
Proof.
  inversion 1 as [? ? to from d Hguard | ]; subst; [|done].
  change w' with (d, w').2. rewrite <- Hguard.
  apply beforeEach_keeps_session.
Qed.

(** No step of a navigation changes the session flag. *)
Lemma reachable_keeps_session s s' :
  rtc step s s' -> isAuthenticated s'.1 = isAuthenticated s.1.
Proof.
  induction 1 as [|[w n] [w' n'] s'' Hstep _ IH]; [done|].
  rewrite IH. exact (step_keeps_session _ _ _ _ Hstep).
Qed.

(** A resolved navigation carries the result of the guard on its target. *)
Lemma resolved_by_guard s w to from d :
  rtc step s (w, Resolved to from d) ->
  s = (w, Resolved to from d)
  \/ exists w0, beforeEach to from w0 = (d, w).
Proof.
  intros H. apply rtc_inv_r in H as [-> | (y & _ & Hlast)]; [by left|].
  right. inversion Hlast; subst. eauto.
Qed.

(** C4. In every state a navigation reaches, a target with
    [authRequired = true] that was resolved without a session was resolved
    to the redirect to [login] with its full path, never to [true]; the
    page a navigation renders has [authRequired = true] only with a
    session; and the guard never answers [true] for such a target without
    a session. *)
Theorem protected_page_needs_session
  (w0 w : World) (to0 from0 : Location.t) (n : Nav) :
  rtc step (w0, Pending to0 from0) (w, n) ->
  isAuthenticated w = isAuthenticated w0
  /\ (forall to from d,
        n = Resolved to from d ->
        Location.meta to !! "authRequired" = Some true ->
        isAuthenticated w = false ->
        d = NavRedirect (Raw.mk (lit "login")
                           {[ "redirect" := QValue (Some (Location.fullPath to)) ]}))
  /\ (forall page,
        rendered n = Some page ->
        Location.meta page !! "authRequired" = Some true ->
        isAuthenticated w = true)
  /\ (forall to from,
        Location.meta to !! "authRequired" = Some true ->
        isAuthenticated w = false ->
        (beforeEach to from w).1 <> NavTrue).
Proof.
  intros Hreach.
  assert (Hresolved : forall to from d,
    n = Resolved to from d ->
    Location.meta to !! "authRequired" = Some true ->
    d = if isAuthenticated w then NavTrue
        else NavRedirect (Raw.mk (lit "login")
                            {[ "redirect" := QValue (Some (Location.fullPath to)) ]})).
  { intros to from d -> Hmeta.
    apply resolved_by_guard in Hreach as [[=] | [wp Hguard]].
    change d with (d, w).1. change w with (d, w).2 at 2.
    rewrite <- Hguard, beforeEach_keeps_session, beforeEach_decision, Hmeta.
    reflexivity. }
  split; [exact (reachable_keeps_session _ _ Hreach)|].
  split; [|split].
  - intros to from d Hn Hmeta Hsession.
    rewrite (Hresolved to from d Hn Hmeta), Hsession. reflexivity.
  - intros page Hpage Hmeta.
    destruct n as [|to from [|raw]]; try discriminate.
    injection Hpage as ->.
    specialize (Hresolved page from NavTrue eq_refl Hmeta).
    destruct (isAuthenticated w); [done | discriminate].
  - intros to from Hmeta Hsession.
    by rewrite (guard_redirects_to_login_aux to from w Hmeta Hsession).
Qed.

(** The login record, resolved by name with any query. *)
Lemma resolveNamed_login query :
  exists fullPath,
    resolveNamed stringifyQuery (Raw.mk (lit "login") query) =
      Some (Location.mk (Some (lit "login")) (lit "/login") fullPath query
              (authMeta false)).
Proof. eexists. reflexivity. Qed.

Lemma redirect_is_login to from w w' raw :
  beforeEach to from w = (NavRedirect raw, w') ->
  raw = Raw.mk (lit "login")
          {[ "redirect" := QValue (Some (Location.fullPath to)) ]}.
Proof.
  intros Hguard. apply (f_equal fst) in Hguard.
  rewrite beforeEach_decision in Hguard. simpl in Hguard.
  destruct (truthy _); [destruct (isAuthenticated w)|]; congruence.
Qed.

Lemma redirect_target_proceeds_aux to from w w' raw :
  beforeEach to from w = (NavRedirect raw, w') ->
  exists login,
    resolveNamed stringifyQuery raw = Some login
    /\ forall from' w'', (beforeEach login from' w'').1 = NavTrue.
Proof.
  intros Hguard. rewrite (redirect_is_login _ _ _ _ _ Hguard).
  destruct (resolveNamed_login {[ "redirect" := QValue (Some (Location.fullPath to)) ]})
    as [fullPath Hlogin].
  eexists. split; [exact Hlogin|].
  intros from' w''. by apply guard_proceeds_on_public_route_aux.
Qed.

(** C10. A redirect of the guard names the route [login]; the router
    resolves it to the login record, whose [authRequired] is [false], and
    the guard proceeds on that location for either value of the session
    flag, so that a redirect is never answered with another redirect. *)
Theorem redirect_target_proceeds (to from : Location.t) (w w' : World) (raw : Raw.t) :
  beforeEach to from w = (NavRedirect raw, w') ->
  Raw.name raw = lit "login"
  /\ exists login,
       resolveNamed stringifyQuery raw = Some login
       /\ Location.name login = Some (lit "login")
       /\ Location.meta login !! "authRequired" = Some false
       /\ forall from' w'', (beforeEach login from' w'').1 = NavTrue.
Proof.
  intros Hguard. rewrite (redirect_is_login _ _ _ _ _ Hguard).
  split; [reflexivity|].
  destruct (resolveNamed_login {[ "redirect" := QValue (Some (Location.fullPath to)) ]})
    as [fullPath Hlogin].
  eexists. split; [exact Hlogin|]. split; [reflexivity|]. split; [reflexivity|].
  intros from' w''. by apply guard_proceeds_on_public_route_aux.
Qed.

(** Every navigation comes to rest on a page after at most one redirect. *)
Lemma navigation_renders (to from : Location.t) (w : World) :
  exists w' page from',
    rtc step (w, Pending to from) (w', Resolved page from' NavTrue).
Proof.
  destruct (beforeEach to from w) as [[|raw] w1] eqn:Hguard.
  - exists w1, to, from. apply rtc_once. by constructor.
  - destruct (redirect_target_proceeds_aux to from w w1 raw Hguard)
      as (login & Hlogin & Hproceed).
    exists (beforeEach login from w1).2, login, from.
    eapply rtc_l; [by apply step_guard|].
    eapply rtc_l; [by apply step_redirect|].
    apply rtc_once, step_guard.
    rewrite <- (Hproceed from w1). apply surjective_pairing.
Qed.

End NavigationProperties.


Section NavigationExamples.

Import Router.

Lemma protected_page_needs_session_witness :
  let to := resolvePath (lit "/user-profile") in
  let from := resolvePath (lit "/") in
  let w0 := mkWorld (UserStore.mk false) [] in
  let r := beforeEach to from w0 in
  isAuthenticated r.2 = isAuthenticated w0
  /\ r.1 = NavRedirect (Raw.mk (lit "login")
                          {[ "redirect" := QValue (Some (Location.fullPath to)) ]})
  /\ rendered (Resolved to from r.1) = None.
Proof.
  intros to from w0 r.
  assert (Hreach : rtc (step (fun _ => [])) (w0, Pending to from)
                     (r.2, Resolved to from r.1)).
  { apply rtc_once, step_guard, surjective_pairing. }
  destruct (protected_page_needs_session (fun _ => []) w0 r.2 to from _ Hreach)
    as (Hsession & Hresolved & _).
  split; [exact Hsession|]. split; [|reflexivity].
  apply (Hresolved to from r.1 eq_refl); vm_compute; reflexivity.
Defined.

Lemma redirect_target_proceeds_witness :
  let to := resolvePath (lit "/user-quizzes") in
  let from := resolvePath (lit "/quiz-browser") in
  let w0 := mkWorld (UserStore.mk false) [] in
  let raw := Raw.mk (lit "login")
               {[ "redirect" := QValue (Some (lit "/user-quizzes")) ]} in
  exists login,
    resolveNamed (fun _ => []) raw = Some login
    /\ Location.path login = lit "/login"
    /\ forall from' session,
         (beforeEach login from' (mkWorld (UserStore.mk session) [])).1 = NavTrue.
Proof.
  intros to from w0 raw.
  assert (Hguard : beforeEach to from w0 = (NavRedirect raw, (beforeEach to from w0).2))
    by (vm_compute; reflexivity).
  destruct (redirect_target_proceeds (fun _ => []) to from w0 _ raw Hguard)
    as (_ & login & Hlogin & _ & _ & Hproceed).
  exists login. split; [exact Hlogin|]. split.
  - assert (Hres : resolveNamed (fun _ => []) raw
                   = Some (Location.mk (Some (lit "login")) (lit "/login")
                             (lit "/login") (Raw.query raw) (authMeta false)))
      by reflexivity.
    rewrite Hres in Hlogin. by injection Hlogin as <-.
  - intros from' session. apply Hproceed.
Defined.

End NavigationExamples.

(** ** The registration form *)

Section FormProperties.

Import CreateUser.

(** A string is blank when it consists of white space, the empty string
    included. *)
Lemma isBlank_spaces str : isBlank str = forallb is_space str.
Proof.
  unfold isBlank. rewrite test_star_class. by destruct str.
Qed.

(** The button is enabled exactly when the five fields read by
    [fieldsFilled] are not blank. *)
Lemma registerButtonEnabled_iff r :
  registerButtonEnabled r = true <->
  isBlank (username r) = false /\ isBlank (email r) = false
  /\ isBlank (name r) = false /\ isBlank (surname r) = false
  /\ isBlank (confirmPassword r) = false.
Proof.
  unfold registerButtonEnabled, registerButtonDisabled, fieldsFilled.
  rewrite negb_involutive, !andb_true_iff, !negb_true_iff. tauto.
Qed.

(** [fieldsFilled] does not read [password]. *)
Lemma fieldsFilled_password r pw :
  fieldsFilled (mkRefs (username r) pw (confirmPassword r) (email r) (name r)
                  (surname r) (errorMessage r))
  = fieldsFilled r.
Proof. reflexivity. Qed.

(** C5. The button is meant to be enabled only when the six required
    fields are not blank. With an empty password and the other five fields
    filled in, the button is enabled all the same: [fieldsFilled] leaves
    [password] out. *)
Theorem register_button_enabled_with_blank_password :
  let r := mkRefs (lit "ada") [] (lit "secret") (lit "ada@example.org")
             (lit "Ada") (lit "Lovelace") [] in
  isBlank (password r) = true
  /\ fieldsFilled r = true
  /\ registerButtonEnabled r = true.
Proof. vm_compute. auto. Qed.

(** C6, as the code has it. The listener of each of the six inputs cancels
    a [keydown] event whose [key] is the space character or whose [code]
    is [Space], and leaves every other event as it is. *)
Theorem space_keydown_is_cancelled (i : Input) (e : KeyboardEvent) :
  (key e = lit " " \/ code e = lit "Space" -> onKeydown i e = preventDefault e)
  /\ (key e <> lit " " -> code e <> lit "Space" -> onKeydown i e = e).
Proof.
  assert (Hi : onKeydown i e = preventSpace e) by by destruct i.
  rewrite Hi. unfold preventSpace, strict_eq. split.
  - intros [H | H].
    + by rewrite (bool_decide_eq_true_2 _ H).
    + rewrite (bool_decide_eq_true_2 _ H). by rewrite orb_true_r.
  - intros Hkey Hcode.
    by rewrite (bool_decide_eq_false_2 _ Hkey), (bool_decide_eq_false_2 _ Hcode).
Qed.

Lemma space_keydown_is_cancelled_witness :
  defaultPrevented (onKeydown input_password (mkEvent (lit " ") (lit "Space") false))
  = true
  /\ onKeydown input_email (mkEvent (lit "a") (lit "KeyA") false)
     = mkEvent (lit "a") (lit "KeyA") false.
Proof.
  split.
  - rewrite (proj1 (space_keydown_is_cancelled input_password
                      (mkEvent (lit " ") (lit "Space") false))).
    + reflexivity.
    + left. reflexivity.
  - apply (proj2 (space_keydown_is_cancelled input_email
                    (mkEvent (lit "a") (lit "KeyA") false)));
      vm_compute; discriminate.
Defined.

(** An ideographic space (U+3000) is white space for [isBlank], and a
    [keydown] event that carries it as [key] with a [code] other than
    [Space] is not cancelled in any input. *)
Lemma ideographic_space_not_cancelled :
  let e := mkEvent [12288%N] [] false in
  is_space 12288%N = true
  /\ isBlank (key e) = true
  /\ forall i, defaultPrevented (onKeydown i e) = false.
Proof.
  split; [reflexivity|]. split; [reflexivity|]. by intros [].
Qed.

End FormProperties.

Section RegisterProperties.

Import CreateUser.

Variable Err : Type.
Variable Env : Type.
Variable store_registerUser : CreateUserRequestDTO.t -> Env -> option Err * Env.
Variable router_push : PushArg -> Env -> option Err * Env.
Variable handleRequestError : Err -> jsstring -> Env -> (jsstring + Err) * Env.

#[local] Abbreviation register :=
  (CreateUser.register Err Env store_registerUser router_push handleRequestError).

Lemma register_mismatch (st : State Err Env) :
  password (refs st) <> confirmPassword (refs st) ->
  register st =
    (inl tt,
     mkState (set_errorMessage (lit "Password conformation not correct.") (refs st))
       (route st) (env st) (calls st)).
Proof.
  intros Hne. unfold CreateUser.register, mbind, M_bind, bind, get.
  unfold strict_ne, strict_eq. rewrite (bool_decide_eq_false_2 _ Hne).
  reflexivity.
Qed.

(** With equal passwords the store is called first, with the trimmed
    fields. *)
Lemma register_calls_store (st : State Err Env) :
  password (refs st) = confirmPassword (refs st) ->
  exists rest,
    calls (register st).2 =
      calls st
      ++ CallRegisterUser
           (CreateUserRequestDTO.mk
              (trim (username (refs st))) (trim (password (refs st)))
              (trim (email (refs st))) (trim (name (refs st)))
              (trim (surname (refs st))))
         :: rest.
Proof.
  intros Heq. unfold CreateUser.register, mbind, M_bind, bind, get.
  unfold strict_ne, strict_eq. rewrite (bool_decide_eq_true_2 _ Heq).
  unfold tryCatch, awaitRegisterUser, awaitPush, awaitHandleRequestError,
    await, assignErrorMessage. cbn [negb refs route env calls].
  destruct (store_registerUser _ (env st)) as [[e|] env1]; cbn.
  - destruct (handleRequestError e _ env1) as [[msg|e'] env2]; cbn;
      rewrite <- app_assoc; eauto.
  - destruct (truthyEntry _); cbn.
    + destruct (router_push _ env1) as [[e|] env2]; cbn.
      * destruct (handleRequestError e _ env2) as [[msg|e'] env3]; cbn;
          rewrite <- !app_assoc; eauto.
      * rewrite <- app_assoc. eauto.
    + destruct (router_push _ env1) as [[e|] env2]; cbn.
      * destruct (handleRequestError e _ env2) as [[msg|e'] env3]; cbn;
          rewrite <- !app_assoc; eauto.
      * rewrite <- app_assoc. eauto.
Qed.

(** C7. When [password] differs from [confirmPassword], [register] sets
    the error message to its text and returns: it calls neither the store
    nor the router, and the six fields, the route, the environment and the
    calls are as before. A call of [store.registerUser] made by [register]
    implies that the two fields are equal. *)
Theorem register_checks_password_confirmation (st : State Err Env) :
  (password (refs st) <> confirmPassword (refs st) ->
     register st =
       (inl tt,
        mkState
          (mkRefs (username (refs st)) (password (refs st))
             (confirmPassword (refs st)) (email (refs st)) (name (refs st))
             (surname (refs st)) (lit "Password conformation not correct."))
          (route st) (env st) (calls st))
     /\ errorMessage (refs (register st).2)
        = lit "Password conformation not correct.")
  /\ (forall user,
        CallRegisterUser user ∈ drop (length (calls st)) (calls (register st).2) ->
        password (refs st) = confirmPassword (refs st)).
Proof.
  split.
  { intros Hne. rewrite (register_mismatch st Hne). by split. }
  intros user Hcall.
  destruct (decide (password (refs st) = confirmPassword (refs st))) as [|Hne];
    [done|].
  rewrite (register_mismatch st Hne) in Hcall. simpl in Hcall.
  rewrite drop_all in Hcall. by apply elem_of_nil in Hcall.
Qed.

End RegisterProperties.

Section RegisterExamples.

Import CreateUser.

(** A mismatch of one letter, with a store that accepts every request, a
    router whose pushes succeed and an error service that echoes. *)
Lemma register_checks_password_confirmation_witness :
  let st : State unit unit :=
    mkState (mkRefs (lit "ada") (lit "secret") (lit "secre")
               (lit "ada@example.org") (lit "Ada") (lit "Lovelace") [])
      (Router.resolvePath (lit "/register-user")) tt [] in
  let r := CreateUser.register unit unit
             (fun _ env => (None, env)) (fun _ env => (None, env))
             (fun _ msg env => (inl msg, env)) st in
  r = (inl tt,
       mkState (mkRefs (lit "ada") (lit "secret") (lit "secre")
                  (lit "ada@example.org") (lit "Ada") (lit "Lovelace")
                  (lit "Password conformation not correct."))
         (Router.resolvePath (lit "/register-user")) tt [])
  /\ errorMessage (refs r.2) = lit "Password conformation not correct.".
Proof.
  intros st r.
  apply (proj1 (register_checks_password_confirmation unit unit
                  (fun _ env => (None, env)) (fun _ env => (None, env))
                  (fun _ msg env => (inl msg, env)) st)).
  vm_compute. discriminate.
Defined.

(** With equal passwords the store is called with the trimmed fields and
    the router goes to [/]. *)
Example register_accepts :
  calls (CreateUser.register unit unit
           (fun _ env => (None, env)) (fun _ env => (None, env))
           (fun _ msg env => (inl msg, env))
           (mkState (mkRefs (lit "ada") (lit " secret") (lit " secret")
                       (lit "ada@example.org") (lit "Ada") (lit "Lovelace") [])
              (Router.resolvePath (lit "/register-user")) tt [])).2
  = [ CallRegisterUser
        (CreateUserRequestDTO.mk (lit "ada") (lit "secret") (lit "ada@example.org")
           (lit "Ada") (lit "Lovelace"));
      CallPush (PushString (lit "/")) ].
Proof. vm_compute. reflexivity. Qed.

End RegisterExamples.

(** * Further properties *)

(** ** Resolution over the whole table *)

Section ResolutionMore.

Import Router.

(** A record other than the catch-all that matches a path is the record
    resolution finds. *)
Lemma matchPath_of_match path r :
  r ∈ routes -> isCatchAll r = false -> matches r path = true ->
  matchPath routes path = Some r.
Proof.
  intros Hr Hcatch Hm. unfold matchPath. rewrite routes_split, find_app_case.
  destruct (find _ (take 10 routes)) as [y|] eqn:Hy.
  - apply find_some in Hy as [Hin Hy]. apply list_elem_of_In in Hin.
    f_equal. apply (routes_disjoint path); auto using front_in_routes,
      front_not_catch_all.
  - apply find_none_iff with (x := r) in Hy; [congruence|].
    by apply not_catch_all_front.
Qed.

(** X1. An absolute path without a line terminator resolves to exactly one
    record of the table; the record matches the path, and every record
    other than the catch-all that matches the path is that record. *)
Theorem resolution_selects_one (path : jsstring) :
  isAbsolute path = true -> singleLine path = true ->
  exists r,
    matchPath routes path = Some r
    /\ r ∈ routes
    /\ matches r path = true
    /\ forall r', r' ∈ routes -> isCatchAll r' = false ->
                  matches r' path = true -> r' = r.
Proof.
  intros Habs Hline.
  assert (Hnf : matches notFound path = true) by by apply matches_notFound.
  destruct (find (fun r => matches r path) (take 10 routes)) as [y|] eqn:Hy.
  - pose proof Hy as Hy'. apply find_some in Hy' as [Hin Hmy].
    apply list_elem_of_In in Hin. exists y.
    assert (Hres : matchPath routes path = Some y).
    { unfold matchPath. by rewrite routes_split, find_app_case, Hy. }
    split; [done|]. split; [by apply front_in_routes|]. split; [done|].
    intros r' Hr' Hc' Hm'.
    apply (routes_disjoint path); auto using front_in_routes, front_not_catch_all.
  - exists notFound. split.
    { unfold matchPath. rewrite routes_split, find_app_case, Hy. simpl.
      by rewrite Hnf. }
    split; [rewrite routes_split, elem_of_app, list_elem_of_singleton; by right|].
    split; [done|].
    intros r' Hr' Hc' Hm'.
    apply find_none_iff with (x := r') in Hy; [congruence|].
    by apply not_catch_all_front.
Qed.

Lemma resolution_selects_one_witness :
  exists r,
    matchPath routes (lit "/quiz-runner/42") = Some r
    /\ Route.name r = lit "quiz-runner".
Proof.
  destruct (resolution_selects_one (lit "/quiz-runner/42") eq_refl eq_refl)
    as (r & Hres & _).
  exists r. split; [exact Hres|].
  assert (H : matchPath routes (lit "/quiz-runner/42")
              = Some (Route.mk (lit "/quiz-runner/:quizId") (lit "quiz-runner")
                        (authMeta false))) by (vm_compute; reflexivity).
  rewrite H in Hres. by injection Hres as <-.
Defined.

(** X2. The record found does not depend on the order of the records
    other than the catch-all: with those ten in any order before the
    catch-all, resolution finds the same record for every path. *)
Theorem resolution_ignores_order (front : list Route.t) (path : jsstring) :
  front ≡ₚ take 10 routes ->
  matchPath (front ++ [notFound]) path = matchPath routes path.
Proof.
  intros Hperm. unfold matchPath. rewrite routes_split, !find_app_case.
  destruct (find _ (take 10 routes)) as [y|] eqn:Hy.
  - apply find_some in Hy as [Hin Hmy]. apply list_elem_of_In in Hin.
    destruct (find _ front) as [z|] eqn:Hz.
    + apply find_some in Hz as [Hzin Hmz]. apply list_elem_of_In in Hzin.
      rewrite Hperm in Hzin. f_equal.
      apply (routes_disjoint path); auto using front_in_routes, front_not_catch_all.
    + rewrite <- Hperm in Hin.
      apply find_none_iff with (x := y) in Hz; [congruence | done].
  - replace (find _ front) with (@None Route.t); [done|].
    symmetry. apply find_none_iff. intros x Hx. rewrite Hperm in Hx.
    by apply (proj1 (find_none_iff _ _) Hy).
Qed.

Lemma resolution_ignores_order_witness :
  matchPath (rev (take 10 routes) ++ [notFound]) (lit "/contact")
  = matchPath routes (lit "/contact").
Proof.
  apply (resolution_ignores_order (rev (take 10 routes)) (lit "/contact")).
  symmetry. apply Permutation_rev.
Defined.

End ResolutionMore.

(** ** Letter case and the patterns *)

Section CaseProperties.

Import Router CaseFold.

(** A code unit that is no Latin letter is the image of itself only. *)
Lemma ascii_upper_other k c :
  (k < 65 \/ 90 < k)%N -> (k < 97 \/ 122 < k)%N ->
  ascii_upper c = k <-> c = k.
Proof.
  intros Hup Hlow. unfold ascii_upper.
  destruct (97 <=? c)%N eqn:H1; destruct (c <=? 122)%N eqn:H2; simpl;
    try apply N.leb_le in H1; try apply N.leb_le in H2;
    try apply N.leb_gt in H1; try apply N.leb_gt in H2; lia.
Qed.

Lemma class_ci_eqb k :
  (k < 65 \/ 90 < k)%N -> (k < 97 \/ 122 < k)%N ->
  class_ci (fun c => (c =? k)%N).
Proof.
  intros Hup Hlow c c' Hcc'. apply eq_true_iff_eq. rewrite !N.eqb_eq.
  pose proof (ascii_upper_other k c Hup Hlow) as Hc.
  pose proof (ascii_upper_other k c' Hup Hlow) as Hc'.
  rewrite Hcc' in Hc. tauto.
Qed.

Lemma class_ci_is_slash : class_ci PathParser.is_slash.
Proof. apply class_ci_eqb; unfold PathParser.slash; lia. Qed.

Lemma class_ci_not_slash : class_ci PathParser.not_slash.
Proof.
  intros c c' H. unfold PathParser.not_slash. by rewrite (class_ci_is_slash c c' H).
Qed.

Lemma class_ci_is_dot : class_ci is_dot.
Proof.
  intros c c' H. unfold is_dot, is_line_terminator.
  rewrite (class_ci_eqb 10 ltac:(lia) ltac:(lia) c c' H),
    (class_ci_eqb 13 ltac:(lia) ltac:(lia) c c' H),
    (class_ci_eqb 8232 ltac:(lia) ltac:(lia) c c' H),
    (class_ci_eqb 8233 ltac:(lia) ltac:(lia) c c' H).
  reflexivity.
Qed.

Lemma regex_ci_literal v : regex_ci (literal_ci v).
Proof.
  induction v as [|c v IH]; simpl; [done|]. split; [|done].
  intros a b Hab. unfold ci_eq. by rewrite Hab.
Qed.

(** Every regular expression the path parser builds is blind to case. *)
Lemma regex_ci_tokens ts :
  forall re, PathParser.tokensRegex ts = Some re -> regex_ci re.
Proof.
  induction ts as [|t ts IH]; simpl; intros re Hre.
  - injection Hre as <-. simpl. split; [apply class_ci_is_slash | done].
  - destruct (PathParser.tokenRegex t) as [r|] eqn:Ht; [|discriminate].
    destruct (PathParser.tokensRegex ts) as [rs|] eqn:Hts; [|discriminate].
    simpl in Hre. injection Hre as <-. simpl. split; [|by apply IH].
    destruct t as [v | n [src|]]; simpl in Ht.
    + injection Ht as <-. simpl.
      split; [apply class_ci_is_slash | apply regex_ci_literal].
    + unfold PathParser.parse_regexp in Ht.
      destruct (strict_eq src (lit ".*")); [|discriminate].
      simpl in Ht. injection Ht as <-. simpl.
      split; [apply class_ci_is_slash | apply class_ci_is_dot].
    + injection Ht as <-. simpl.
      split; [apply class_ci_is_slash|].
      split; apply class_ci_not_slash.
Qed.

Lemma lang_ci r s :
  lang r s -> regex_ci r ->
  forall s', map ascii_upper s = map ascii_upper s' -> lang r s'.
Proof.
  induction 1 as [|p c Hc|r1 r2 u v _ IHu _ IHv|r1 r2 u _ IH|r1 r2 u _ IH
                  |r|r u v _ IHu _ IHv]; simpl; intros Hci s' Heq.
  - destruct s'; [constructor | discriminate].
  - destruct s' as [|c' [|]]; try discriminate.
    injection Heq as Heq. constructor. by rewrite <- (Hci c c' Heq).
  - rewrite map_app in Heq. symmetry in Heq.
    apply map_eq_app in Heq as (u' & v' & -> & Hu & Hv).
    destruct Hci as [H1 H2]. constructor; [by apply IHu | by apply IHv].
  - apply lang_alt_l, IH; [by destruct Hci | done].
  - apply lang_alt_r, IH; [by destruct Hci | done].
  - destruct s'; [constructor | discriminate].
  - rewrite map_app in Heq. symmetry in Heq.
    apply map_eq_app in Heq as (u' & v' & -> & Hu & Hv).
    constructor; [by apply IHu | by apply IHv].
Qed.

Lemma matches_case r path path' :
  map ascii_upper path = map ascii_upper path' ->
  matches r path = matches r path'.
Proof.
  intros Heq. unfold matches, PathParser.pathRegex.
  destruct (PathParser.tokenizePath (Route.path r)) as [ts|]; [|done]. simpl.
  destruct (PathParser.tokensRegex ts) as [re|] eqn:Hre; [|done].
  apply regex_ci_tokens in Hre.
  apply eq_true_iff_eq. rewrite !test_lang.
  split; intros H; by eapply lang_ci.
Qed.

(** X3. Resolution is blind to the case of Latin letters: two paths that
    differ in case only resolve to the same record of any table, so the two
    locations have the same name and the same [meta]. With the same session
    flag the guard proceeds on one exactly when it proceeds on the other,
    and redirects one to [login] with its own full path exactly when it
    redirects the other with its own. *)
Theorem resolution_ignores_case (table : list Route.t) (path path' : jsstring) :
  map ascii_upper path = map ascii_upper path' ->
  matchPath table path = matchPath table path'
  /\ forall fullPath fullPath' query query' from from' w w',
       isAuthenticated w = isAuthenticated w' ->
       Location.name (resolve path fullPath query)
       = Location.name (resolve path' fullPath' query')
       /\ Location.meta (resolve path fullPath query)
          = Location.meta (resolve path' fullPath' query')
       /\ ((beforeEach (resolve path fullPath query) from w).1 = NavTrue
           <-> (beforeEach (resolve path' fullPath' query') from' w').1 = NavTrue)
       /\ ((beforeEach (resolve path fullPath query) from w).1
           = NavRedirect (Raw.mk (lit "login")
                            {[ "redirect" := QValue (Some fullPath) ]})
           <-> (beforeEach (resolve path' fullPath' query') from' w').1
               = NavRedirect (Raw.mk (lit "login")
                                {[ "redirect" := QValue (Some fullPath') ]})).
Proof.
  intros Heq.
  assert (Hfind : forall t, matchPath t path = matchPath t path').
  { intros t. unfold matchPath. induction t as [|r t IH]; simpl; [done|].
    by rewrite (matches_case r path path' Heq), IH. }
  split; [apply Hfind|].
  intros fullPath fullPath' query query' from from' w w' Hsession.
  rewrite !beforeEach_decision, Hsession.
  unfold resolve. rewrite (Hfind routes).
  destruct (matchPath routes path') as [r|]; simpl.
  - split; [done|]. split; [done|].
    destruct (truthy (Route.meta r !! "authRequired"));
      [destruct (isAuthenticated w')|]; split; done.
  - split; [done|]. split; [done|]. split; done.
Qed.

Lemma resolution_ignores_case_witness :
  matchPath routes (lit "/User-Profile") = matchPath routes (lit "/user-profile")
  /\ (beforeEach (resolvePath (lit "/User-Profile")) (resolvePath (lit "/"))
        (mkWorld (UserStore.mk false) [])).1
     = NavRedirect (Raw.mk (lit "login")
                      {[ "redirect" := QValue (Some (lit "/User-Profile")) ]}).
Proof.
  destruct (resolution_ignores_case routes (lit "/User-Profile")
              (lit "/user-profile") eq_refl) as [Hfind Hguard].
  split; [exact Hfind|].
  destruct (Hguard (lit "/User-Profile") (lit "/user-profile") ∅ ∅
              (resolvePath (lit "/")) (resolvePath (lit "/"))
              (mkWorld (UserStore.mk false) []) (mkWorld (UserStore.mk false) [])
              eq_refl) as (_ & _ & _ & Hredirect).
  apply (proj2 Hredirect). vm_compute. reflexivity.
Defined.

End CaseProperties.

(** ** Which paths the guard protects *)

Section ProtectedPaths.

Import Router CaseFold.

(** The converse of [matches_static]. *)
Lemma matches_static_iff r v path :
  PathParser.tokenizePath (Route.path r) = Some [PathParser.Static v] ->
  matches r path = true <->
  map ascii_upper path = 47%N :: map ascii_upper v
  \/ map ascii_upper path = 47%N :: map ascii_upper v ++ [47%N].
Proof.
  intros Htok. split; [by apply matches_static|].
  unfold matches, PathParser.pathRegex. rewrite Htok. simpl.
  pose (re := Cat (Cat (Class PathParser.is_slash) (literal_ci v))
                (Opt (Class PathParser.is_slash))).
  assert (Hci : regex_ci re).
  { apply (regex_ci_tokens [PathParser.Static v]). reflexivity. }
  assert (Hbody : lang (Cat (Class PathParser.is_slash) (literal_ci v)) ([47%N] ++ v)).
  { constructor; [by apply lang_slash | by apply lang_literal_ci]. }
  rewrite test_lang. intros [Heq | Heq].
  - apply (lang_ci re (([47%N] ++ v) ++ [])); [|done|].
    + constructor; [done | by apply lang_opt_slash; left].
    + rewrite app_nil_r. simpl. by rewrite Heq.
  - apply (lang_ci re (([47%N] ++ v) ++ [47%N])); [|done|].
    + constructor; [done | by apply lang_opt_slash; right].
    + rewrite !map_app. simpl. by rewrite Heq.
Qed.

(** The records with [authRequired: true] are the three user pages. *)
Lemma protected_records r :
  r ∈ routes -> truthy (Route.meta r !! "authRequired") = true ->
  exists v,
    v ∈ [lit "user-profile"; lit "user-progress"; lit "user-quizzes"]
    /\ PathParser.tokenizePath (Route.path r) = Some [PathParser.Static v].
Proof.
  intros Hr Hmeta. apply list_elem_of_In in Hr. unfold routes in Hr.
  simpl In in Hr.
  repeat (destruct Hr as [<- | Hr]); try done; try discriminate Hmeta;
    eexists; (split; [|reflexivity]);
    rewrite !elem_of_cons; auto.
Qed.

Lemma user_page_protected v path fullPath query :
  v ∈ [lit "user-profile"; lit "user-progress"; lit "user-quizzes"] ->
  map ascii_upper path = 47%N :: map ascii_upper v
  \/ map ascii_upper path = 47%N :: map ascii_upper v ++ [47%N] ->
  Location.meta (resolve path fullPath query) !! "authRequired" = Some true.
Proof.
  intros Hv Hkey.
  assert (Hrec : exists r,
    r ∈ routes /\ isCatchAll r = false
    /\ PathParser.tokenizePath (Route.path r) = Some [PathParser.Static v]
    /\ Route.meta r = authMeta true).
  { rewrite !elem_of_cons in Hv. destruct Hv as [-> | [-> | [-> | Hv]]].
    - exists (Route.mk (lit "/user-profile") (lit "user-profile") (authMeta true)).
      split; [|by split].
      apply list_elem_of_In. unfold routes. simpl. tauto.
    - exists (Route.mk (lit "/user-progress") (lit "user-progress") (authMeta true)).
      split; [|by split].
      apply list_elem_of_In. unfold routes. simpl. tauto.
    - exists (Route.mk (lit "/user-quizzes") (lit "user-quizzes") (authMeta true)).
      split; [|by split].
      apply list_elem_of_In. unfold routes. simpl. tauto.
    - by apply elem_of_nil in Hv. }
  destruct Hrec as (r & Hr & Hcatch & Htok & Hmeta).
  apply (matches_static_iff r v path Htok) in Hkey.
  unfold resolve. rewrite (matchPath_of_match path r Hr Hcatch Hkey). simpl.
  rewrite Hmeta. reflexivity.
Qed.

(** X4. The guard answers with something other than [true] exactly when
    there is no session and the path is [/user-profile], [/user-progress]
    or [/user-quizzes], in any letter case, with or without one trailing
    slash. *)
Theorem guard_stops_exactly_user_pages
  (path fullPath : jsstring) (query : gmap string QueryEntry)
  (from : Location.t) (w : World) :
  (beforeEach (resolve path fullPath query) from w).1 <> NavTrue <->
  isAuthenticated w = false
  /\ exists v,
       v ∈ [lit "user-profile"; lit "user-progress"; lit "user-quizzes"]
       /\ (map ascii_upper path = 47%N :: map ascii_upper v
           \/ map ascii_upper path = 47%N :: map ascii_upper v ++ [47%N]).
Proof.
  rewrite beforeEach_decision. split.
  - intros Hstop.
    destruct (truthy (Location.meta (resolve path fullPath query) !! "authRequired"))
      eqn:Hmeta; [|done].
    destruct (isAuthenticated w); [done|]. split; [done|].
    unfold resolve in Hmeta.
    destruct (matchPath routes path) as [r|] eqn:Hres; [|discriminate].
    apply find_some in Hres as [Hin Hm]. apply list_elem_of_In in Hin.
    simpl in Hmeta.
    destruct (protected_records r Hin Hmeta) as (v & Hv & Htok).
    exists v. split; [done|]. by apply (matches_static r).
  - intros [Hsession (v & Hv & Hkey)].
    rewrite (user_page_protected v path fullPath query Hv Hkey), Hsession.
    simpl. discriminate.
Qed.

(** X5. For every path, at most one record other than the catch-all
    matches: two such records that match the same path are the same. *)
Theorem patterns_do_not_overlap (path : jsstring) (r1 r2 : Route.t) :
  r1 ∈ routes -> r2 ∈ routes ->
  isCatchAll r1 = false -> isCatchAll r2 = false ->
  matches r1 path = true -> matches r2 path = true ->
  r1 = r2.
Proof. apply routes_disjoint. Qed.

Lemma patterns_do_not_overlap_witness :
  let r := Route.mk (lit "/login") (lit "login") (authMeta false) in
  r = r.
Proof.
  intros r.
  apply (patterns_do_not_overlap (lit "/Login/") r r);
    try (vm_compute; reflexivity);
    apply list_elem_of_In; unfold routes; simpl; tauto.
Defined.

(** X6. The quiz runner takes any quiz id: a path [/quiz-runner/<id>] with
    a non-empty id without a slash resolves to the record [quiz-runner],
    and the guard proceeds on it with or without a session. *)
Theorem quiz_runner_takes_any_id (id : jsstring) :
  id <> [] -> forallb PathParser.not_slash id = true ->
  forall fullPath query,
    Location.name (resolve (lit "/quiz-runner/" ++ id) fullPath query)
    = Some (lit "quiz-runner")
    /\ forall from w,
         (beforeEach (resolve (lit "/quiz-runner/" ++ id) fullPath query) from w).1
         = NavTrue.
Proof.
  intros Hid Hslash fullPath query.
  pose (r := Route.mk (lit "/quiz-runner/:quizId") (lit "quiz-runner") (authMeta false)).
  assert (Hm : matches r (lit "/quiz-runner/" ++ id) = true).
  { unfold matches.
    assert (Hre : PathParser.pathRegex (Route.path r)
                  = Some (Cat (Cat (Class PathParser.is_slash)
                                   (literal_ci (lit "quiz-runner")))
                              (Cat (Cat (Class PathParser.is_slash)
                                        PathParser.BASE_PARAM_PATTERN)
                                   (Opt (Class PathParser.is_slash)))))
      by reflexivity.
    rewrite Hre, test_lang.
    assert (Hp : lit "/quiz-runner/" ++ id
                 = ([47%N] ++ lit "quiz-runner") ++ (([47%N] ++ id) ++ []))
      by (rewrite app_nil_r; reflexivity).
    rewrite Hp. constructor.
    - constructor; [by apply lang_slash | by apply lang_literal_ci].
    - constructor; [|by apply lang_opt_slash; left].
      constructor; [by apply lang_slash|].
      destruct id as [|c rest]; [done|]. simpl in Hslash.
      apply andb_true_iff in Hslash as [Hc Hrest].
      apply (lang_cat _ _ [c] rest); [by constructor | by apply lang_star_class]. }
  assert (Hres : matchPath routes (lit "/quiz-runner/" ++ id) = Some r).
  { apply matchPath_of_match; [|by vm_compute|done].
    apply list_elem_of_In. unfold routes. simpl. tauto. }
  unfold resolve. rewrite Hres. split; [reflexivity|].
  intros from w. by apply guard_proceeds_on_public_route_aux.
Qed.

Lemma quiz_runner_takes_any_id_witness :
  Location.name (resolve (lit "/quiz-runner/" ++ lit "42") (lit "/quiz-runner/42") ∅)
  = Some (lit "quiz-runner").
Proof.
  apply (quiz_runner_takes_any_id (lit "42")); [discriminate | reflexivity].
Defined.

End ProtectedPaths.

(** ** Where a navigation ends *)

Section NavigationMore.

Import Router.

Variable stringifyQuery : gmap string QueryEntry -> jsstring.

(** X7. Every navigation ends on a rendered page after one step or three:
    on its target when the guard answers [true], and otherwise, for a
    protected target without a session, on the page [login] whose query
    carries the full path of the target under [redirect]. The session flag
    is the same at the end. *)
Theorem navigation_ends_on_page (to from : Location.t) (w : World) :
  exists n w' page,
    n <= 3
    /\ nsteps (step stringifyQuery) n (w, Pending to from)
         (w', Resolved page from NavTrue)
    /\ isAuthenticated w' = isAuthenticated w
    /\ ((page = to /\ (beforeEach to from w).1 = NavTrue)
        \/ (Location.name page = Some (lit "login")
            /\ Location.query page !! "redirect"
               = Some (QValue (Some (Location.fullPath to)))
            /\ Location.meta to !! "authRequired" = Some true
            /\ isAuthenticated w = false)).
Proof.
  destruct (beforeEach to from w) as [d w1] eqn:Hguard.
  assert (Hd : d = (beforeEach to from w).1) by by rewrite Hguard.
  assert (Hw1 : isAuthenticated w1 = isAuthenticated w).
  { change w1 with (d, w1).2. rewrite <- Hguard. apply beforeEach_keeps_session. }
  destruct d as [|raw].
  - exists 1, w1, to. split; [lia|]. split.
    { apply nsteps_once. by constructor. }
    split; [done|]. left. by split.
  - pose proof (redirect_is_login _ _ _ _ _ Hguard) as ->.
    destruct (resolveNamed_login stringifyQuery
                {[ "redirect" := QValue (Some (Location.fullPath to)) ]})
      as [fullPath Hlogin].
    set (login := Location.mk (Some (lit "login")) (lit "/login") fullPath
                    {[ "redirect" := QValue (Some (Location.fullPath to)) ]}
                    (authMeta false)) in *.
    assert (Hproceed : (beforeEach login from w1).1 = NavTrue)
      by by apply guard_proceeds_on_public_route_aux.
    exists 3, (beforeEach login from w1).2, login. split; [lia|]. split.
    { eapply nsteps_l; [by apply step_guard|].
      eapply nsteps_l; [by apply step_redirect|].
      apply nsteps_once, step_guard.
      rewrite <- Hproceed. apply surjective_pairing. }
    split; [by rewrite beforeEach_keeps_session|].
    right. split; [reflexivity|]. split; [reflexivity|].
    rewrite beforeEach_decision in Hd.
    destruct (Location.meta to !! "authRequired") as [[|]|]; try discriminate.
    simpl in Hd. destruct (isAuthenticated w); [discriminate | done].
Qed.

(** X8. Whatever it decides, the guard first writes one line to the
    console and leaves the store as it is. The line is [Trying to go from],
    the name of the source route, [to:] and the name of the target route,
    with [undefined] in the place of the name of a location that has none. *)
Theorem guard_logs_one_line (to from : Location.t) (w : World) :
  (beforeEach to from w).2 =
    mkWorld (store w)
      (console w
       ++ [lit "Trying to go from "
           ++ match Location.name from with
              | Some a => a
              | None => lit "undefined"
              end
           ++ lit " to: "
           ++ match Location.name to with
              | Some b => b
              | None => lit "undefined"
              end])
  /\ (forall a b,
        Location.name from = Some a -> Location.name to = Some b ->
        last (console (beforeEach to from w).2)
        = Some (lit "Trying to go from " ++ a ++ lit " to: " ++ b))
  /\ (Location.name from = None -> Location.name to = None ->
      last (console (beforeEach to from w).2)
      = Some (lit "Trying to go from undefined to: undefined")).
Proof.
  assert (H : (beforeEach to from w).2 =
    mkWorld (store w)
      (console w
       ++ [lit "Trying to go from "
           ++ match Location.name from with
              | Some a => a
              | None => lit "undefined"
              end
           ++ lit " to: "
           ++ match Location.name to with
              | Some b => b
              | None => lit "undefined"
              end])).
  { unfold beforeEach.
    destruct (truthy _); [destruct (isAuthenticated _)|]; reflexivity. }
  split; [exact H|]. split.
  - intros a b Hfrom Hto. rewrite H, Hfrom, Hto. simpl console.
    by rewrite last_snoc.
  - intros Hfrom Hto. rewrite H, Hfrom, Hto. simpl console.
    rewrite last_snoc. reflexivity.
Qed.

Lemma guard_logs_one_line_witness :
  last (console (beforeEach (resolvePath (lit "/user-profile"))
                   (resolvePath (lit "/"))
                   (mkWorld (UserStore.mk false) [lit "earlier"])).2)
  = Some (lit "Trying to go from home to: user-profile")
  /\ last (console (beforeEach (resolvePath (lit "/a" ++ [10%N]))
                      (resolvePath (lit "/b" ++ [10%N]))
                      (mkWorld (UserStore.mk false) [])).2)
     = Some (lit "Trying to go from undefined to: undefined").
Proof.
  split.
  - apply (proj1 (proj2 (guard_logs_one_line _ _ _)) (lit "home") (lit "user-profile"));
      vm_compute; reflexivity.
  - apply (proj2 (proj2 (guard_logs_one_line _ _ _))); vm_compute; reflexivity.
Defined.

End NavigationMore.

(** ** Blank strings and trimming *)

Section TrimProperties.

Import CreateUser TrimSpec.

Lemma drop_space_split s :
  exists pre,
    s = pre ++ drop_space s
    /\ forallb is_space pre = true
    /\ forall c rest, drop_space s = c :: rest -> is_space c = false.
Proof.
  induction s as [|c s (pre & Hs & Hpre & Hhead)]; simpl.
  - exists []. by repeat split.
  - destruct (is_space c) eqn:Hc.
    + exists (c :: pre). split; [by rewrite Hs at 1|]. split; [|done].
      simpl. by rewrite Hc.
    + exists []. split; [done|]. split; [done|].
      intros c' rest [= <- _]. done.
Qed.

Lemma drop_space_nil s : drop_space s = [] <-> forallb is_space s = true.
Proof.
  induction s as [|c s IH]; simpl; [done|].
  destruct (is_space c); simpl; [done|]. split; discriminate.
Qed.

Lemma forallb_rev {A} (f : A -> bool) l : forallb f (rev l) = forallb f l.
Proof.
  induction l as [|x l IH]; simpl; [done|].
  rewrite forallb_app, IH. simpl. rewrite andb_true_r. apply andb_comm.
Qed.

Lemma trim_nil s : trim s = [] <-> forallb is_space s = true.
Proof.
  unfold trim. split.
  - intros H. apply (f_equal (@rev code_unit)) in H.
    rewrite rev_involutive in H. simpl in H.
    apply drop_space_nil in H. rewrite forallb_rev in H.
    destruct (drop_space_split s) as (pre & Hs & Hpre & Hhead).
    destruct (drop_space s) as [|c rest] eqn:Hd.
    + by apply drop_space_nil.
    + simpl in H. apply andb_true_iff in H as [Hc _].
      rewrite (Hhead c rest eq_refl) in Hc. discriminate.
  - intros H. apply drop_space_nil in H. by rewrite H.
Qed.

Lemma trim_stripped s : stripped s (trim s).
Proof.
  destruct (drop_space_split s) as (l & Hs & Hl & Hhead).
  destruct (drop_space_split (rev (drop_space s))) as (pre & Ht & Hpre & Hlast).
  assert (Hmid : drop_space s = trim s ++ rev pre).
  { unfold trim. rewrite <- rev_app_distr, <- Ht. by rewrite rev_involutive. }
  split; [|split].
  - exists l, (rev pre). split; [by rewrite <- Hmid|]. split; [done|].
    by rewrite forallb_rev.
  - intros c rest Hc. rewrite Hc in Hmid. by eapply Hhead.
  - intros init c Hc. unfold trim in Hc.
    apply (f_equal (@rev code_unit)) in Hc.
    rewrite rev_involutive, rev_app_distr in Hc. simpl in Hc. by eapply Hlast.
Qed.

(** X9. [isBlank] holds of the empty string and of the strings made of
    white space and line terminators only, and of no other string. *)
Theorem isBlank_exactly_white_space (str : jsstring) :
  isBlank str = true <-> Forall (fun c => is_space c = true) str.
Proof.
  rewrite isBlank_spaces, forallb_forall, Forall_forall.
  split; intros H c Hc; apply H; by apply list_elem_of_In.
Qed.

Lemma isBlank_iff_trim_empty_aux str : trim str = [] -> isBlank str = true.
Proof. by rewrite isBlank_spaces, trim_nil. Qed.

(** X10. A string is blank exactly when trimming it leaves nothing, so a
    field that is not blank is sent as a non-empty text. *)
Theorem isBlank_iff_trim_empty (str : jsstring) :
  isBlank str = true <-> trim str = [].
Proof. by rewrite isBlank_spaces, trim_nil. Qed.

End TrimProperties.

(** ** The whole of [register] *)

Section RegisterMore.

Import CreateUser TrimSpec.

Variable Err : Type.
Variable Env : Type.
Variable store_registerUser : CreateUserRequestDTO.t -> Env -> option Err * Env.
Variable router_push : PushArg -> Env -> option Err * Env.
Variable handleRequestError : Err -> jsstring -> Env -> (jsstring + Err) * Env.

#[local] Abbreviation register :=
  (CreateUser.register Err Env store_registerUser router_push handleRequestError).

(** The request built from the fields, and the argument of [router.push]. *)
#[local] Abbreviation requestOf r :=
  (CreateUserRequestDTO.mk (trim (username r)) (trim (password r))
     (trim (email r)) (trim (name r)) (trim (surname r))).

#[local] Abbreviation targetOf st :=
  (if truthyEntry (Location.query (route st) !! "redirect")
   then asString (Location.query (route st) !! "redirect")
   else PushString (lit "/")).

#[local] Abbreviation failed := (lit "Registration failed").

(** The ways through [register]: the mismatch, the store rejecting, the
    push succeeding and the push failing; [r] is what the error service
    answers with. *)
Lemma register_cases (st : State Err Env) :
  (password (refs st) <> confirmPassword (refs st)
   /\ register st =
        (inl tt,
         mkState (set_errorMessage (lit "Password conformation not correct.") (refs st))
           (route st) (env st) (calls st)))
  \/ (password (refs st) = confirmPassword (refs st)
      /\ ((exists e env1 r env2,
             store_registerUser (requestOf (refs st)) (env st) = (Some e, env1)
             /\ handleRequestError e failed env1 = (r, env2)
             /\ register st =
                  (match r with inl _ => inl tt | inr e' => inr e' end,
                   mkState
                     (match r with
                      | inl msg => set_errorMessage msg (refs st)
                      | inr _ => refs st
                      end) (route st) env2
                     (calls st ++ [CallRegisterUser (requestOf (refs st));
                                   CallHandleRequestError e failed])))
          \/ (exists env1 env2,
                store_registerUser (requestOf (refs st)) (env st) = (None, env1)
                /\ router_push (targetOf st) env1 = (None, env2)
                /\ register st =
                     (inl tt,
                      mkState (refs st) (route st) env2
                        (calls st ++ [CallRegisterUser (requestOf (refs st));
                                      CallPush (targetOf st)])))
          \/ (exists env1 e env2 r env3,
                store_registerUser (requestOf (refs st)) (env st) = (None, env1)
                /\ router_push (targetOf st) env1 = (Some e, env2)
                /\ handleRequestError e failed env2 = (r, env3)
                /\ register st =
                     (match r with inl _ => inl tt | inr e' => inr e' end,
                      mkState
                        (match r with
                         | inl msg => set_errorMessage msg (refs st)
                         | inr _ => refs st
                         end) (route st) env3
                        (calls st ++ [CallRegisterUser (requestOf (refs st));
                                      CallPush (targetOf st);
                                      CallHandleRequestError e failed]))))).
Proof.
  destruct (decide (password (refs st) = confirmPassword (refs st))) as [Heq|Hne].
  2: { left. split; [done|]. by apply register_mismatch. }
  right. split; [done|].
  unfold CreateUser.register, mbind, M_bind, bind, get.
  unfold strict_ne, strict_eq. rewrite (bool_decide_eq_true_2 _ Heq).
  unfold tryCatch, awaitRegisterUser, awaitPush, awaitHandleRequestError,
    await, assignErrorMessage. cbn [negb refs route env calls].
  destruct (store_registerUser _ (env st)) as [[e|] env1] eqn:Hstore; cbn.
  - left. destruct (handleRequestError e _ env1) as [r env2] eqn:Hh; cbn.
    exists e, env1, r, env2. rewrite <- app_assoc.
    split; [done|]. split; [done|]. by destruct r.
  - right. destruct (truthyEntry _) eqn:Htruthy; cbn;
      destruct (router_push _ env1) as [[e|] env2] eqn:Hpush; cbn.
    + right. destruct (handleRequestError e _ env2) as [r env3] eqn:Hh; cbn.
      exists env1, e, env2, r, env3. rewrite <- !app_assoc.
      split; [done|]. split; [done|]. split; [done|]. by destruct r.
    + left. exists env1, env2. rewrite <- !app_assoc. by repeat split.
    + right. destruct (handleRequestError e _ env2) as [r env3] eqn:Hh; cbn.
      exists env1, e, env2, r, env3. rewrite <- !app_assoc.
      split; [done|]. split; [done|]. split; [done|]. by destruct r.
    + left. exists env1, env2. rewrite <- !app_assoc. by repeat split.
Qed.

(** A call of the store made by [register] carries the trimmed fields, and
    is made with equal passwords only. *)
Lemma register_store_call (st : State Err Env) user :
  CallRegisterUser user ∈ drop (length (calls st)) (calls (register st).2) ->
  user = requestOf (refs st)
  /\ password (refs st) = confirmPassword (refs st).
Proof.
  destruct (register_cases st)
    as [[Hne Hreg] | [Heq [(e & env1 & r & env2 & _ & _ & Hreg)
                          | [(env1 & env2 & _ & _ & Hreg)
                            | (env1 & e & env2 & r & env3 & _ & _ & _ & Hreg)]]]];
    rewrite Hreg; simpl; rewrite ?drop_all, ?drop_app_length;
    rewrite ?elem_of_cons, ?elem_of_nil; intros H; split; try done;
    repeat (destruct H as [H | H]); try done; congruence.
Qed.

(** X11. With equal passwords, a store that accepts the request and a
    router that performs the push, [register] calls the store with the
    trimmed fields, then the router, and changes nothing in the form: the
    error message, too, stays as it was. *)
Theorem register_success (st : State Err Env) (env1 env2 : Env) :
  password (refs st) = confirmPassword (refs st) ->
  store_registerUser (requestOf (refs st)) (env st) = (None, env1) ->
  router_push (targetOf st) env1 = (None, env2) ->
  register st =
    (inl tt,
     mkState (refs st) (route st) env2
       (calls st ++ [CallRegisterUser (requestOf (refs st)); CallPush (targetOf st)])).
Proof.
  intros Heq Hstore Hpush.
  destruct (register_cases st)
    as [[Hne _] | [_ [(e & e1 & r & e2 & Hs & _ & _)
                     | [(e1 & e2 & Hs & Hp & Hreg)
                       | (e1 & e & e2 & r & e3 & Hs & Hp & _ & _)]]]];
    [done | congruence | | congruence].
  rewrite Hreg. congruence.
Qed.

(** X12. When the store rejects the request, [register] does not call the
    router: it hands the error to the error service with the text
    [Registration failed], and the text the service returns becomes the
    error message; the six fields stay as they are. *)
Theorem register_store_rejects
  (st : State Err Env) (e : Err) (env1 env2 : Env) (msg : jsstring) :
  password (refs st) = confirmPassword (refs st) ->
  store_registerUser (requestOf (refs st)) (env st) = (Some e, env1) ->
  handleRequestError e failed env1 = (inl msg, env2) ->
  register st =
    (inl tt,
     mkState
       (mkRefs (username (refs st)) (password (refs st)) (confirmPassword (refs st))
          (email (refs st)) (name (refs st)) (surname (refs st)) msg)
       (route st) env2
       (calls st ++ [CallRegisterUser (requestOf (refs st));
                     CallHandleRequestError e failed]))
  /\ errorMessage (refs (register st).2) = msg.
Proof.
  intros Heq Hstore Hhandle.
  destruct (register_cases st)
    as [[Hne _] | [_ [(e' & e1 & r & e2 & Hs & Hh & Hreg)
                     | [(e1 & e2 & Hs & _ & _)
                       | (e1 & e' & e2 & r & e3 & Hs & _ & _ & _)]]]];
    [done | | congruence | congruence].
  rewrite Hreg. rewrite Hstore in Hs. injection Hs as <- <-.
  rewrite Hhandle in Hh. injection Hh as <- <-. by split.
Qed.

(** X13. When the store accepts the request and the push fails, the user
    is registered all the same; the error of the push goes to the error
    service with the text [Registration failed], and the text the service
    returns becomes the error message. *)
Theorem register_push_rejects
  (st : State Err Env) (e : Err) (env1 env2 env3 : Env) (msg : jsstring) :
  password (refs st) = confirmPassword (refs st) ->
  store_registerUser (requestOf (refs st)) (env st) = (None, env1) ->
  router_push (targetOf st) env1 = (Some e, env2) ->
  handleRequestError e failed env2 = (inl msg, env3) ->
  register st =
    (inl tt,
     mkState
       (mkRefs (username (refs st)) (password (refs st)) (confirmPassword (refs st))
          (email (refs st)) (name (refs st)) (surname (refs st)) msg)
       (route st) env3
       (calls st ++ [CallRegisterUser (requestOf (refs st));
                     CallPush (targetOf st);
                     CallHandleRequestError e failed]))
  /\ errorMessage (refs (register st).2) = msg.
Proof.
  intros Heq Hstore Hpush Hhandle.
  destruct (register_cases st)
    as [[Hne _] | [_ [(e' & e1 & r & e2 & Hs & _ & _)
                     | [(e1 & e2 & Hs & Hp & _)
                       | (e1 & e' & e2 & r & e3 & Hs & Hp & Hh & Hreg)]]]];
    [done | congruence | congruence |].
  rewrite Hreg. rewrite Hstore in Hs. injection Hs as <-.
  rewrite Hpush in Hp. injection Hp as <- <-.
  rewrite Hhandle in Hh. injection Hh as <- <-. by split.
Qed.

(** X14. After a request the store accepted, the router is sent to
    [route.query.redirect] when that is a non-empty string, and to [/] when
    it is missing, [null] or the empty string. *)
Theorem register_redirect_target (st : State Err Env) (env1 : Env) :
  password (refs st) = confirmPassword (refs st) ->
  store_registerUser (requestOf (refs st)) (env st) = (None, env1) ->
  (forall s,
     Location.query (route st) !! "redirect" = Some (QValue (Some s)) ->
     s <> [] ->
     calls (register st).2 !! (length (calls st) + 1)
     = Some (CallPush (PushString s)))
  /\ (Location.query (route st) !! "redirect" = None
      \/ Location.query (route st) !! "redirect" = Some (QValue None)
      \/ Location.query (route st) !! "redirect" = Some (QValue (Some [])) ->
      calls (register st).2 !! (length (calls st) + 1)
      = Some (CallPush (PushString (lit "/")))).
Proof.
  intros Heq Hstore.
  assert (Hcall : calls (register st).2 !! (length (calls st) + 1)
                  = Some (CallPush (targetOf st))).
  { destruct (register_cases st)
      as [[Hne _] | [_ [(e' & e1 & msg' & e2 & Hs & _ & _)
                       | [(e1 & e2 & _ & _ & Hreg)
                         | (e1 & e' & e2 & msg' & e3 & _ & _ & _ & Hreg)]]]];
      [done | congruence | |];
      rewrite Hreg; simpl; rewrite lookup_app_r by lia;
      by replace (length (calls st) + 1 - length (calls st)) with 1 by lia. }
  rewrite Hcall. split.
  - intros s Hq Hs. rewrite Hq. destruct s; [done|]. reflexivity.
  - intros [Hq | [Hq | Hq]]; by rewrite Hq.
Qed.

(** X15. [register] never changes the six fields. It catches the errors of
    the store and of the router, and rejects only with an error that the
    error service itself has thrown. The calls it makes are none, or the
    store followed by the router, by the error service, or by both in that
    order. *)
Theorem register_frame (st : State Err Env) :
  (forall f, FormView.value f (refs (register st).2) = FormView.value f (refs st))
  /\ (forall e',
        (register st).1 = inr e' ->
        exists e m env1 env2, handleRequestError e m env1 = (inr e', env2))
  /\ exists new,
       calls (register st).2 = calls st ++ new
       /\ (new = []
           \/ exists user,
                (exists e m, new = [CallRegisterUser user; CallHandleRequestError e m])
                \/ (exists t, new = [CallRegisterUser user; CallPush t])
                \/ (exists t e m,
                      new = [CallRegisterUser user; CallPush t;
                             CallHandleRequestError e m])).
Proof.
  destruct (register_cases st)
    as [[Hne Hreg] | [Heq [(e & env1 & r & env2 & _ & Hh & Hreg)
                          | [(env1 & env2 & _ & _ & Hreg)
                            | (env1 & e & env2 & r & env3 & _ & _ & Hh & Hreg)]]]];
    rewrite Hreg; simpl.
  - split; [by intros []|]. split; [done|].
    exists []. split; [by rewrite app_nil_r | by left].
  - split; [destruct r; by intros []|]. split.
    { intros e' He'. destruct r as [msg|e'']; [done|]. injection He' as ->. eauto. }
    eexists. split; [done|]. right. eexists. left. eauto.
  - split; [by intros []|]. split; [done|].
    eexists. split; [done|]. right. eexists. right. left. eauto.
  - split; [destruct r; by intros []|]. split.
    { intros e' He'. destruct r as [msg|e'']; [done|]. injection He' as ->. eauto. }
    eexists. split; [done|]. right. eexists. right. right. eauto.
Qed.

(** X16. With the button enabled, every request [register] sends to the
    store has five non-empty fields, the password included: it is only
    sent when it equals the confirmation, which [fieldsFilled] has tested. *)
Theorem register_sends_filled_fields (st : State Err Env) :
  fieldsFilled (refs st) = true ->
  forall user,
    CallRegisterUser user ∈ drop (length (calls st)) (calls (register st).2) ->
    CreateUserRequestDTO.username user <> []
    /\ CreateUserRequestDTO.password user <> []
    /\ CreateUserRequestDTO.email user <> []
    /\ CreateUserRequestDTO.name user <> []
    /\ CreateUserRequestDTO.surname user <> [].
Proof.
  intros Hfilled user Hcall.
  apply register_store_call in Hcall as [-> Heq]. simpl.
  unfold fieldsFilled in Hfilled.
  rewrite !andb_true_iff, !negb_true_iff in Hfilled.
  destruct Hfilled as ((((Hu & He) & Hn) & Hs) & Hc).
  rewrite <- Heq in Hc.
  assert (Hne : forall s, isBlank s = false -> trim s <> []).
  { intros s Hs' Ht. apply isBlank_iff_trim_empty_aux in Ht. congruence. }
  repeat split; by apply Hne.
Qed.

(** X17. Every field of a request [register] sends is the field of the
    form without the white space at its two ends, and nothing else is
    removed. *)
Theorem register_sends_trimmed_fields (st : State Err Env) (user : CreateUserRequestDTO.t) :
  CallRegisterUser user ∈ drop (length (calls st)) (calls (register st).2) ->
  stripped (username (refs st)) (CreateUserRequestDTO.username user)
  /\ stripped (password (refs st)) (CreateUserRequestDTO.password user)
  /\ stripped (email (refs st)) (CreateUserRequestDTO.email user)
  /\ stripped (name (refs st)) (CreateUserRequestDTO.name user)
  /\ stripped (surname (refs st)) (CreateUserRequestDTO.surname user).
Proof.
  intros Hcall. apply register_store_call in Hcall as [-> _]. simpl.
  repeat split; apply trim_stripped.
Qed.

(** X18. The message of a password mismatch is on display after
    [register], and it goes away with the next edit of any field. *)
Theorem mismatch_shown_until_edit (st : State Err Env) :
  password (refs st) <> confirmPassword (refs st) ->
  FormView.errorShown (refs (register st).2) = true
  /\ forall f v,
       FormView.value f (refs st) <> v ->
       FormView.errorShown (FormView.input f v (refs (register st).2)) = false
       /\ FormView.value f (FormView.input f v (refs (register st).2)) = v.
Proof.
  intros Hne. rewrite (register_mismatch _ _ _ _ _ st Hne). simpl.
  split; [reflexivity|].
  intros f v Hv. unfold FormView.input, strict_eq.
  rewrite bool_decide_eq_false_2 by by destruct f.
  by destruct f.
Qed.

(** X20. When the store rejects the request and the error service fails
    in its turn, [register] rejects with the error of the service: the
    error message and the six fields are as before, and the router is not
    called. *)
Theorem register_error_service_fails
  (st : State Err Env) (e e' : Err) (env1 env2 : Env) :
  password (refs st) = confirmPassword (refs st) ->
  store_registerUser (requestOf (refs st)) (env st) = (Some e, env1) ->
  handleRequestError e failed env1 = (inr e', env2) ->
  register st =
    (inr e',
     mkState (refs st) (route st) env2
       (calls st ++ [CallRegisterUser (requestOf (refs st));
                     CallHandleRequestError e failed])).
Proof.
  intros Heq Hstore Hhandle.
  destruct (register_cases st)
    as [[Hne _] | [_ [(e0 & e1 & r & e2 & Hs & Hh & Hreg)
                     | [(e1 & e2 & Hs & _ & _)
                       | (e1 & e0 & e2 & r & e3 & Hs & _ & _ & _)]]]];
    [done | | congruence | congruence].
  rewrite Hreg. rewrite Hstore in Hs. injection Hs as <- <-.
  rewrite Hhandle in Hh. by injection Hh as <- <-.
Qed.

End RegisterMore.

Section RegisterMoreExamples.

Import CreateUser TrimSpec.

(** A form with equal passwords on [/register-user], a store and a router
    that accept everything, and an error service that echoes its text. *)
Lemma register_success_witness :
  let st : State jsstring unit :=
    mkState (mkRefs (lit " ada ") (lit "secret") (lit "secret")
               (lit "ada@example.org") (lit "Ada") (lit "Lovelace") (lit "old"))
      (Router.resolvePath (lit "/register-user")) tt [] in
  CreateUser.register jsstring unit
    (fun _ env => (None, env)) (fun _ env => (None, env))
    (fun _ msg env => (inl msg, env)) st
  = (inl tt,
     mkState (refs st) (route st) tt
       [ CallRegisterUser
           (CreateUserRequestDTO.mk (lit "ada") (lit "secret")
              (lit "ada@example.org") (lit "Ada") (lit "Lovelace"));
         CallPush (PushString (lit "/")) ]).
Proof.
  intros st.
  exact (register_success jsstring unit
           (fun _ env => (None, env)) (fun _ env => (None, env))
           (fun _ msg env => (inl msg, env)) st tt tt eq_refl eq_refl eq_refl).
Defined.

(** A store that rejects every request with the error [409]. *)
Lemma register_store_rejects_witness :
  let st : State jsstring unit :=
    mkState (mkRefs (lit "ada") (lit "secret") (lit "secret")
               (lit "ada@example.org") (lit "Ada") (lit "Lovelace") [])
      (Router.resolvePath (lit "/register-user")) tt [] in
  let r := CreateUser.register jsstring unit
             (fun _ env => (Some (lit "409"), env)) (fun _ env => (None, env))
             (fun e msg env => (inl (msg ++ lit ": " ++ e), env)) st in
  r = (inl tt,
       mkState (mkRefs (lit "ada") (lit "secret") (lit "secret")
                  (lit "ada@example.org") (lit "Ada") (lit "Lovelace")
                  (lit "Registration failed: 409"))
         (Router.resolvePath (lit "/register-user")) tt
         [ CallRegisterUser
             (CreateUserRequestDTO.mk (lit "ada") (lit "secret")
                (lit "ada@example.org") (lit "Ada") (lit "Lovelace"));
           CallHandleRequestError (lit "409") (lit "Registration failed") ])
  /\ errorMessage (refs r.2) = lit "Registration failed: 409".
Proof.
  intros st r.
  exact (register_store_rejects jsstring unit
           (fun _ env => (Some (lit "409"), env)) (fun _ env => (None, env))
           (fun e msg env => (inl (msg ++ lit ": " ++ e), env)) st (lit "409") tt tt
           (lit "Registration failed: 409") eq_refl eq_refl eq_refl).
Defined.

(** A router whose push fails with [aborted]. *)
Lemma register_push_rejects_witness :
  let st : State jsstring unit :=
    mkState (mkRefs (lit "ada") (lit "secret") (lit "secret")
               (lit "ada@example.org") (lit "Ada") (lit "Lovelace") [])
      (Router.resolvePath (lit "/register-user")) tt [] in
  let r := CreateUser.register jsstring unit
             (fun _ env => (None, env)) (fun _ env => (Some (lit "aborted"), env))
             (fun e msg env => (inl (msg ++ lit ": " ++ e), env)) st in
  r = (inl tt,
       mkState (mkRefs (lit "ada") (lit "secret") (lit "secret")
                  (lit "ada@example.org") (lit "Ada") (lit "Lovelace")
                  (lit "Registration failed: aborted"))
         (Router.resolvePath (lit "/register-user")) tt
         [ CallRegisterUser
             (CreateUserRequestDTO.mk (lit "ada") (lit "secret")
                (lit "ada@example.org") (lit "Ada") (lit "Lovelace"));
           CallPush (PushString (lit "/"));
           CallHandleRequestError (lit "aborted") (lit "Registration failed") ])
  /\ errorMessage (refs r.2) = lit "Registration failed: aborted".
Proof.
  intros st r.
  exact (register_push_rejects jsstring unit
           (fun _ env => (None, env)) (fun _ env => (Some (lit "aborted"), env))
           (fun e msg env => (inl (msg ++ lit ": " ++ e), env)) st (lit "aborted")
           tt tt tt (lit "Registration failed: aborted")
           eq_refl eq_refl eq_refl eq_refl).
Defined.

(** A store that rejects with [409] and an error service that fails with
    [offline]. *)
Lemma register_error_service_fails_witness :
  let st : State jsstring unit :=
    mkState (mkRefs (lit "ada") (lit "secret") (lit "secret")
               (lit "ada@example.org") (lit "Ada") (lit "Lovelace") (lit "old"))
      (Router.resolvePath (lit "/register-user")) tt [] in
  CreateUser.register jsstring unit
    (fun _ env => (Some (lit "409"), env)) (fun _ env => (None, env))
    (fun _ _ env => (inr (lit "offline"), env)) st
  = (inr (lit "offline"),
     mkState (mkRefs (lit "ada") (lit "secret") (lit "secret")
                (lit "ada@example.org") (lit "Ada") (lit "Lovelace") (lit "old"))
       (Router.resolvePath (lit "/register-user")) tt
       [ CallRegisterUser
           (CreateUserRequestDTO.mk (lit "ada") (lit "secret")
              (lit "ada@example.org") (lit "Ada") (lit "Lovelace"));
         CallHandleRequestError (lit "409") (lit "Registration failed") ]).
Proof.
  intros st.
  exact (register_error_service_fails jsstring unit
           (fun _ env => (Some (lit "409"), env)) (fun _ env => (None, env))
           (fun _ _ env => (inr (lit "offline"), env)) st (lit "409")
           (lit "offline") tt tt eq_refl eq_refl eq_refl).
Defined.

(** With the failing error service above, what [register] rejects with is
    what the service has thrown. *)
Lemma register_frame_witness :
  exists e m env1 env2,
    (fun (_ : jsstring) (_ : jsstring) (env : unit) =>
       (@inr jsstring jsstring (lit "offline"), env)) e m env1
    = (inr (lit "offline"), env2).
Proof.
  pose (st := mkState (Err := jsstring) (Env := unit)
                (mkRefs (lit "ada") (lit "secret") (lit "secret")
                   (lit "ada@example.org") (lit "Ada") (lit "Lovelace") [])
                (Router.resolvePath (lit "/register-user")) tt []).
  apply (proj1 (proj2 (register_frame jsstring unit
                         (fun _ env => (Some (lit "409"), env))
                         (fun _ env => (None, env))
                         (fun _ _ env => (inr (lit "offline"), env)) st))).
  reflexivity.
Defined.

(** The form reached with [?redirect=/user-profile]. *)
Lemma register_redirect_target_witness :
  let st : State jsstring unit :=
    mkState (mkRefs (lit "ada") (lit "secret") (lit "secret")
               (lit "ada@example.org") (lit "Ada") (lit "Lovelace") [])
      (Router.resolve (lit "/register-user")
         (lit "/register-user?redirect=/user-profile")
         {[ "redirect" := QValue (Some (lit "/user-profile")) ]}) tt [] in
  calls (CreateUser.register jsstring unit
           (fun _ env => (None, env)) (fun _ env => (None, env))
           (fun _ msg env => (inl msg, env)) st).2 !! (length (calls st) + 1)
  = Some (CallPush (PushString (lit "/user-profile"))).
Proof.
  intros st.
  apply (proj1 (register_redirect_target jsstring unit
                  (fun _ env => (None, env)) (fun _ env => (None, env))
                  (fun _ msg env => (inl msg, env)) st tt eq_refl eq_refl)).
  - vm_compute. reflexivity.
  - discriminate.
Defined.

Lemma register_sends_filled_fields_witness :
  CreateUserRequestDTO.password
    (CreateUserRequestDTO.mk (lit "ada") (lit "secret") (lit "ada@example.org")
       (lit "Ada") (lit "Lovelace")) <> [].
Proof.
  pose (st := mkState (Err := jsstring) (Env := unit)
                (mkRefs (lit "ada") (lit " secret") (lit " secret")
                   (lit "ada@example.org") (lit "Ada") (lit "Lovelace") [])
                (Router.resolvePath (lit "/register-user")) tt []).
  apply (register_sends_filled_fields jsstring unit
           (fun _ env => (None, env)) (fun _ env => (None, env))
           (fun _ msg env => (inl msg, env)) st).
  - vm_compute. reflexivity.
  - apply list_elem_of_here.
Defined.

Lemma register_sends_trimmed_fields_witness :
  stripped (lit "  ada ") (lit "ada").
Proof.
  pose (st := mkState (Err := jsstring) (Env := unit)
                (mkRefs (lit "  ada ") (lit "secret") (lit "secret")
                   (lit "ada@example.org") (lit "Ada") (lit "Lovelace") [])
                (Router.resolvePath (lit "/register-user")) tt []).
  apply (register_sends_trimmed_fields jsstring unit
           (fun _ env => (None, env)) (fun _ env => (None, env))
           (fun _ msg env => (inl msg, env)) st
           (CreateUserRequestDTO.mk (lit "ada") (lit "secret") (lit "ada@example.org")
              (lit "Ada") (lit "Lovelace"))).
  apply list_elem_of_here.
Defined.

Lemma mismatch_shown_until_edit_witness :
  let st : State jsstring unit :=
    mkState (mkRefs (lit "ada") (lit "secret") (lit "secre")
               (lit "ada@example.org") (lit "Ada") (lit "Lovelace") [])
      (Router.resolvePath (lit "/register-user")) tt [] in
  let st' := (CreateUser.register jsstring unit
                (fun _ env => (None, env)) (fun _ env => (None, env))
                (fun _ msg env => (inl msg, env)) st).2 in
  FormView.errorShown (refs st') = true
  /\ FormView.errorShown
       (FormView.input FormView.field_confirmPassword (lit "secret") (refs st'))
     = false.
Proof.
  intros st st'.
  destruct (mismatch_shown_until_edit jsstring unit
              (fun _ env => (None, env)) (fun _ env => (None, env))
              (fun _ msg env => (inl msg, env)) st) as [Hshown Hedit].
  - vm_compute. discriminate.
  - split; [exact Hshown|].
    apply (Hedit FormView.field_confirmPassword (lit "secret")).
    vm_compute. discriminate.
Defined.

End RegisterMoreExamples.

(** ** The watcher *)

Section WatchProperties.

Import CreateUser FormView.

(** X19. An input event that changes the text of a field sets that field,
    leaves the other five as they are and empties the error message; an
    input event that leaves the text as it is changes nothing, the error
    message included. *)
Theorem edit_clears_error (f : Field) (v : jsstring) (r : Refs) :
  (value f r <> v ->
     errorMessage (input f v r) = []
     /\ value f (input f v r) = v
     /\ forall g, g <> f -> value g (input f v r) = value g r)
  /\ (value f r = v -> input f v r = r).
Proof.
  unfold input, strict_eq. split.
  - intros Hne. rewrite (bool_decide_eq_false_2 _ Hne).
    split; [by destruct f|]. split; [by destruct f|].
    intros g Hg. by destruct f, g.
  - intros Heq. by rewrite (bool_decide_eq_true_2 _ Heq).
Qed.

Lemma edit_clears_error_witness :
  let r := mkRefs (lit "ada") (lit "secret") (lit "secre") (lit "ada@example.org")
             (lit "Ada") (lit "Lovelace") (lit "Password conformation not correct.") in
  errorMessage (input field_confirmPassword (lit "secret") r) = []
  /\ input field_email (lit "ada@example.org") r = r.
Proof.
  intros r. split.
  - apply (proj1 (edit_clears_error field_confirmPassword (lit "secret") r)).
    vm_compute. discriminate.
  - apply (proj2 (edit_clears_error field_email (lit "ada@example.org") r)).
    reflexivity.
Defined.

End WatchProperties.
